(** * rts/vec.hpp: lane vectors, masks and element pointers

  A shallow embedding of the generic (non-intrinsic) code paths of
  [src/rts/vec.hpp]: the architecture descriptors, the primary [vec<T,A>]
  template, the bit-packed [vec<bool,A>], the element pointers
  [vptr]/[const_vptr], the default loader and the operator templates; and,
  of the specialisations built on intrinsics, the member operators [+] and
  [>>] of [vec<std::int32_t>] on [avx_4] and [avx2_8].

  Conventions.
  - [std::uint32_t] values are integers in [0, 2^32); every operation that
    can leave that range is followed by [u32].  [unsigned long] is taken to
    be 64 bits wide ([u64]).
  - [std::int32_t] values are integers; [static_cast<int32_t>] is [s32].
  - [std::ptrdiff_t] arithmetic and [int] lane arithmetic are written over
    [Z] without wrap-around: signed overflow is undefined in C++.
  - [/] and [%] of C++ truncate towards zero: [Z.quot] and [Z.rem].
  - a pointer to a [vec<T,A>] is the position of that vector in its array,
    so that [v + n] advances by [n] whole vectors. *)

From Stdlib Require Import ZArith Lia Bool List String Sorted.
From stdpp Require Import base list.

Local Open Scope Z_scope.

(** ** Fixed-width integers *)

Definition u32 (z : Z) : Z := z mod 2 ^ 32.
Definition u64 (z : Z) : Z := z mod 2 ^ 64.
Definition s32 (z : Z) : Z := (z + 2 ^ 31) mod 2 ^ 32 - 2 ^ 31.

(** [bool] to integer conversion. *)
Definition b2z (b : bool) : Z := if b then 1 else 0.

(** [~x] on a [std::uint32_t] and on an [unsigned long]. *)
Definition not32 (x : Z) : Z := Z.lxor x (2 ^ 32 - 1).
Definition not64 (x : Z) : Z := Z.lxor x (2 ^ 64 - 1).

(** [1ul << i]. *)
Definition bit_ul (i : Z) : Z := u64 (Z.shiftl 1 i).

(** ** Architecture descriptors (namespace [target]) *)

Module target.

(** [detail::ilog2]: [int r = 0; while (v >>= 1) ++r; return r;].  An [int]
    is exhausted after 32 shifts. *)
Fixpoint ilog2_loop (fuel : nat) (v r : Z) : Z :=
  match fuel with
  | O => r
  | S fuel' =>
      let v' := Z.shiftr v 1 in
      if v' =? 0 then r else ilog2_loop fuel' v' (r + 1)
  end.

Definition ilog2 (v : Z) : Z := ilog2_loop 32 v 0.

Record arch : Type := Arch {
  width : Z;
  width_mask : Z;
  shift : Z;
  shift_mask : Z;
  alignment : Z
}.

(** [template <size_t N> struct generic]. *)
Definition generic (N : Z) : arch :=
  {| width := N;
     width_mask := u32 (Z.shiftl 1 N - 1);
     shift := ilog2 N;
     shift_mask := u32 (Z.shiftl 1 (ilog2 N) - 1);
     alignment := 1 |}.

Definition avx_4 : arch :=
  {| width := 4; width_mask := 15; shift := 2; shift_mask := 3;
     alignment := 16 |}.

Definition avx2_8 : arch :=
  {| width := 8; width_mask := 255; shift := 3; shift_mask := 7;
     alignment := 32 |}.

Definition avx512_16 : arch :=
  {| width := 16; width_mask := 65535; shift := 4; shift_mask := 15;
     alignment := 64 |}.

(** The descriptors on which the code is defined: [1 << width] needs
    [width] below the 32 bits of an [int], and [width_mask] has exactly the
    [width] low bits set. *)
Definition arch_ok (A : arch) : Prop :=
  0 < width A < 32 /\ width_mask A = 2 ^ width A - 1.

(** Boolean form of [arch_ok]. *)
Definition arch_okb (A : arch) : bool :=
  (0 <? width A) && (width A <? 32) && (width_mask A =? 2 ^ width A - 1).

End target.

Import target.

(** ** Element pointers ([detail::const_vptr], [detail::vptr]) *)

Module vptr.

(** [struct vptr { vec<T,A> * v; std::int32_t i; }]. *)
Record t : Type := Vptr { v : Z; i : Z }.

(** The assertion of the constructor,
    [assert(0 <= i && i < A::width); // invariant]. *)
Definition invariant (A : arch) (p : t) : bool :=
  (0 <=? i p) && (i p <? width A).

(** [operator + (vptr<T,A> & lhs, std::ptrdiff_t j)]; the [const_vptr]
    overload has the same body. *)
Definition plus (A : arch) (lhs : t) (j : Z) : t :=
  let k := i lhs + j in
  let v' := v lhs + Z.quot k (width A) in
  let i' := s32 (Z.rem k (width A)) in
  if i' <? 0 then Vptr (v' - 1) (i' + 1) else Vptr v' i'.

(** [operator + (std::ptrdiff_t j, vptr<T,A> & rhs)]. *)
Definition plus_l (A : arch) (j : Z) (rhs : t) : t :=
  let k := j + i rhs in
  let v' := v rhs + Z.quot k (width A) in
  let i' := s32 (Z.rem k (width A)) in
  if i' <? 0 then Vptr (v' - 1) (i' + 1) else Vptr v' i'.

(** [vptr::operator += (std::ptrdiff_t j)], statement by statement. *)
Definition add_assign (A : arch) (p : t) (j : Z) : t :=
  let k := i p + j in
  let p1 := Vptr (v p + Z.quot k (width A)) (i p) in
  let p2 := Vptr (v p1) (s32 (Z.rem k (width A))) in
  if i p2 <? 0 then Vptr (v p2 - 1) (i p2 + 1) else p2.

(** [vptr::operator -= (std::ptrdiff_t j)]. *)
Definition sub_assign (A : arch) (p : t) (j : Z) : t :=
  let k := i p - j in
  let p1 := Vptr (v p + Z.quot k (width A)) (i p) in
  let p2 := Vptr (v p1) (s32 (Z.rem k (width A))) in
  if i p2 <? 0 then Vptr (v p2 - 1) (i p2 + 1) else p2.

(** [operator - (const const_vptr & lhs, const const_vptr & rhs)]. *)
Definition diff (A : arch) (lhs rhs : t) : Z :=
  width A * (v lhs - v rhs) + i lhs - i rhs.

(** [operator ==] and [operator !=]. *)
Definition eqb (lhs rhs : t) : bool :=
  (v lhs =? v rhs) && (i lhs =? i rhs).

Definition neqb (lhs rhs : t) : bool :=
  negb (v lhs =? v rhs) || negb (i lhs =? i rhs).

(** [operator <] and [operator <=]. *)
Definition ltb (lhs rhs : t) : bool :=
  (v lhs <? v rhs) || ((v lhs =? v rhs) && (i lhs <? i rhs)).

Definition leb (lhs rhs : t) : bool :=
  (v lhs <? v rhs) || ((v lhs =? v rhs) && (i lhs <=? i rhs)).

(** The prefix increment
    [const_vptr<T,A> & operator++(const_vptr<T,A> & lhs)]:
    [lhs.i += 1; if (lhs.i > A::width) { lhs.i = 0; ++lhs.v; } return lhs;].
    The result is the operand after the update. *)
Definition incr (A : arch) (lhs : t) : t :=
  let p1 := Vptr (v lhs) (i lhs + 1) in
  if width A <? i p1 then Vptr (v p1 + 1) 0 else p1.

(** The prefix decrement
    [const_vptr<T,A> & operator--(const_vptr<T,A> & lhs)]:
    [lhs.i -= 1; if (lhs.i < 0) { lhs.i = A::width-1; --lhs.v; }
     return lhs;]. *)
Definition decr (A : arch) (lhs : t) : t :=
  let p1 := Vptr (v lhs) (i lhs - 1) in
  if i p1 <? 0 then Vptr (v p1 - 1) (width A - 1) else p1.

(** The other increment and decrement templates have no definition here:
    none of them can be instantiated.  The templates of lines 1752-1764
    repeat the two bodies above with the return type [vptr<T,A> &], to
    which the [const_vptr<T,A> &] operand they return cannot bind.  The
    postfix forms apply [++lhs] and [--lhs] to their [const_vptr<T,A> &]
    operand, for which the two prefix templates of each operator, alike in
    their parameter and different in their return type, are equally good
    candidates.  For the same reason an expression [++p] on a [const_vptr]
    names no single function: [incr] and [decr] are what
    [detail::operator++<T,A>] and [detail::operator--<T,A>] denote at the
    type [const_vptr<T,A> & (const_vptr<T,A> &)]. *)

(** The arithmetic the specification asks for, in its own words:
    [i' = i + k], [q = floor(i' / width)], [r = i' - q*width], result
    [(V + q, r)]. *)
Definition spec_plus (A : arch) (p : t) (k : Z) : t :=
  let i' := i p + k in
  let q := i' / width A in
  let r := i' - q * width A in
  Vptr (v p + q) r.

End vptr.


(** ** Results of calls *)

(** A call returns a value, or its loop is still running when the fuel is
    spent, or the call names no function that takes its arguments. *)
Inductive res (X : Type) : Type :=
| Ret (x : X)
| OutOfFuel
| NoMatchingFunction.

Arguments Ret {X} x.
Arguments OutOfFuel {X}.
Arguments NoMatchingFunction {X}.

(** ** Mask vectors: the bit-packed [vec<bool,A>] *)

Module mask.

(** [std::uint32_t data]. *)
Definition t : Type := Z.

(** The values a [std::uint32_t] member can hold. *)
Definition wf (m : t) : Prop := 0 <= m < 2 ^ 32.

(** [vec()], [vec(std::false_type)], [vec(std::true_type)], [vec(bool b)]. *)
Definition ctor_default : t := 0.
Definition ctor_false : t := 0.
Definition ctor_true (A : arch) : t := width_mask A.
Definition ctor_bool (A : arch) (b : bool) : t :=
  if b then width_mask A else 0.

(** [movemask()]. *)
Definition movemask (m : t) : Z := m.

(** [get(int i)]: [return data & (1ul << i);], converted to [bool]. *)
Definition get (m : t) (i : Z) : bool :=
  negb (Z.land m (bit_ul i) =? 0).

(** [put(int i, bool b)]:
    [data = b ? data | (1ul << i) : data & ~(1ul << i);]. *)
Definition put (m : t) (i : Z) (b : bool) : t :=
  u32 (if b then Z.lor m (bit_ul i) else Z.land m (not64 (bit_ul i))).

(** [vec(std::initializer_list<bool> bs)]:
    [int i = 1; for (auto b : bs) { if (b) data |= i; i <<= 1; }]. *)
Fixpoint init_list_loop (bs : list bool) (i : Z) (data : t) : t :=
  match bs with
  | [] => data
  | b :: bs' =>
      let data' := if b then u32 (Z.lor data (u32 i)) else data in
      init_list_loop bs' (s32 (Z.shiftl i 1)) data'
  end.

Definition ctor_init_list (bs : list bool) : t := init_list_loop bs 1 0.

(** [vec(vec<U,arch> & that)]:
    [for (int i = 0; i < arch::width; ++i) if (that.get(i)) data |= 1ul << i;]
    with [that_get i] the truth value of [that.get(i)]. *)
Definition ctor_vec (A : arch) (that_get : Z -> bool) : t :=
  fold_left
    (fun data i => if that_get i then u32 (Z.lor data (bit_ul i)) else data)
    (seqZ 0 (width A)) 0.

(** [operator ~], [operator !]: [data ^ A::width_mask]. *)
Definition not (A : arch) (m : t) : t := Z.lxor m (width_mask A).
Definition lnot (A : arch) (m : t) : t := Z.lxor m (width_mask A).

(** [operator &], [|], [^], [&&], [||] and the compound [&=], [|=], [^=]. *)
Definition and (m rhs : t) : t := Z.land m rhs.
Definition or (m rhs : t) : t := Z.lor m rhs.
Definition xor (m rhs : t) : t := Z.lxor m rhs.
Definition land (m rhs : t) : t := Z.land m rhs.
Definition lor (m rhs : t) : t := Z.lor m rhs.
Definition and_assign (m rhs : t) : t := Z.land m rhs.
Definition or_assign (m rhs : t) : t := Z.lor m rhs.
Definition xor_assign (m rhs : t) : t := Z.lxor m rhs.

(** The invariant of the data model: [movemask() & ~width_mask == 0]. *)
Definition invariant (A : arch) (m : t) : Prop :=
  Z.land (movemask m) (not32 (width_mask A)) = 0.

End mask.

(** [movemask(m)], [any(m)], [all(m)]: the free functions return
    [std::uint32_t]. *)
Definition movemask (m : mask.t) : Z := mask.movemask m.

Definition any (m : mask.t) : Z := b2z (negb (movemask m =? 0)).

Definition all (A : arch) (m : mask.t) : Z :=
  b2z (movemask m =? width_mask A).

(** Modelled from the spec: [bscf], which [vec.hpp] takes from [x86.hpp].
    The specification describes it as bit-scan-forward-and-clear: it
    extracts the index of the lowest set bit of its argument and clears that
    bit in place.  [bsf] scans the 32 bits upwards from bit 0. *)
Fixpoint bsf_from (fuel : nat) (i : Z) (m : Z) : Z :=
  match fuel with
  | O => i
  | S fuel' => if Z.testbit m i then i else bsf_from fuel' (i + 1) m
  end.

Definition bsf (m : Z) : Z := bsf_from 32 0 m.

(** Modelled from the spec: [int i = bscf(m); // mutates m], returning the
    index and the updated word. *)
Definition bscf (m : Z) : Z * Z := (bsf m, Z.clearbit m (bsf m)).

(** [foreach_active]:
    [std::uint32_t m = movemask(mask); while (m) { int i = bscf(m); f(i); }].
    The callable [f] acts on the state [S] it captures by reference. *)
Fixpoint foreach_loop {S : Type} (fuel : nat) (m : Z) (f : Z -> S -> S)
    (s : S) : res S :=
  if m =? 0 then Ret s
  else
    match fuel with
    | O => OutOfFuel
    | Datatypes.S fuel' =>
        let '(i, m') := bscf m in
        foreach_loop fuel' m' f (f i s)
    end.

Definition foreach_active {S : Type} (msk : mask.t) (f : Z -> S -> S)
    (s : S) : res S :=
  foreach_loop 32 (movemask msk) f s.

(** The indices of the set bits of a 32-bit word, lowest first. *)
Definition active_lanes (m : Z) : list Z :=
  List.filter (Z.testbit m) (seqZ 0 32).

(** ** Lane vectors *)

(** Value-initialisation [T()] of an element type. *)
Class ValueInit (T : Type) : Type := value_init : T.

(** [std::int32_t] elements, pointers (addresses, [nullptr] is 0), [bool]. *)
Definition int32 : Type := Z.
Definition ptr : Type := Z.

#[export] Instance int32_init : ValueInit Z := 0.
#[export] Instance bool_init : ValueInit bool := false.

(** [int32 + int32] with two's complement wrap-around. *)
Definition int32_add (a b : int32) : int32 := s32 (a + b).

(** What every [vec<T,A>] offers, whichever specialisation is selected:
    the default constructor, the constructor from one scalar, [get] and
    [put].  [wf] is the set of values the representation type can hold. *)
Class Lanes (A : arch) (T : Type) : Type := {
  vec : Type;
  zero : vec;
  splat : T -> vec;
  get : vec -> Z -> T;
  put : vec -> Z -> T -> vec;
  wf : vec -> Prop
}.

Arguments vec A T {_}.
Arguments zero {A T _}.
Arguments splat {A T _} _.
Arguments get {A T _} _ _.
Arguments put {A T _} _ _ _.
Arguments wf {A T _} _.

(** *** The primary template [vec<T,A>]: [T data [arch::width]] *)

Module generic_vec.

Section Generic.
Context (A : arch) {T : Type} `{ValueInit T}.

(** [vec() : data() {}]. *)
Definition ctor_default : list T :=
  replicate (Z.to_nat (width A)) value_init.

(** [vec(const T & u) : data() { for (auto && r : data) r = u; }]. *)
Definition ctor_scalar (u : T) : list T :=
  fmap (fun _ => u) ctor_default.

(** [std::copy(first, last, data)]: the [k]-th element goes to [data[k]]. *)
Fixpoint copy (src : list T) (k : nat) (data : list T) : list T :=
  match src with
  | [] => data
  | x :: src' => copy src' (S k) (<[k := x]> data)
  end.

(** [vec(std::initializer_list<T> il) : data()
      { std::copy(il.begin(), il.end(), data); }]. *)
Definition ctor_init_list (il : list T) : list T :=
  copy il 0%nat ctor_default.

(** [get(int i)]: [return data[i];].  Defined for [i] in [[0, width)]. *)
Definition get (data : list T) (i : Z) : T :=
  default value_init (data !! Z.to_nat i).

(** [put(int i, const T & rhs)]: [data[i] = rhs;].  Defined for [i] in
    [[0, width)]. *)
Definition put (data : list T) (i : Z) (rhs : T) : list T :=
  <[Z.to_nat i := rhs]> data.

(** The array has exactly [arch::width] elements. *)
Definition wf (data : list T) : Prop :=
  length data = Z.to_nat (width A).

End Generic.

End generic_vec.

#[export] Instance generic_lanes (A : arch) (T : Type) `{ValueInit T} :
  Lanes A T | 10 :=
  {| vec := list T;
     zero := generic_vec.ctor_default A;
     splat := generic_vec.ctor_scalar A;
     get := generic_vec.get;
     put := generic_vec.put;
     wf := generic_vec.wf A |}.

(** The partial specialisation [vec<bool,A>] is selected before the primary
    template. *)
#[export] Instance mask_lanes (A : arch) : Lanes A bool | 0 :=
  {| vec := mask.t;
     zero := mask.ctor_default;
     splat := mask.ctor_bool A;
     get := mask.get;
     put := mask.put;
     wf := mask.wf |}.

(** *** [vec<std::pair<S,T>,A>]: [vec<S,A> first; vec<T,A> second;] *)

#[export] Instance pair_init (S T : Type) `{ValueInit S} `{ValueInit T} :
  ValueInit (S * T) := (value_init, value_init).

#[export] Instance pair_lanes (A : arch) (S T : Type)
  `{Lanes A S} `{Lanes A T} : Lanes A (S * T) | 5 :=
  {| vec := (vec A S * vec A T)%type;
     (* vec() = default *)
     zero := (zero, zero);
     (* vec(const std::pair<S,T> & that)
          : first(that.first), second(that.second) *)
     splat := fun that => (splat (fst that), splat (snd that));
     (* make_pair(first.get(i), second.get(i)) *)
     get := fun v i => (get (fst v) i, get (snd v) i);
     (* first.put(i, v.first); second.put(i, v.second); *)
     put := fun v i x => (put (fst v) i (fst x), put (snd v) i (snd x));
     wf := fun v => wf (fst v) /\ wf (snd v) |}.

(** *** [vec<std::tuple<Ts...>,A>]: [std::tuple<vec<Ts,A>...> data] *)

(** [std::tuple<>] and [std::tuple<T, Ts...>]. *)
Inductive tuple_nil : Type := tnil.
Inductive tuple_cons (T Ts : Type) : Type := tcons (hd : T) (tl : Ts).

Arguments tcons {T Ts} hd tl.

Definition thd {T Ts : Type} (t : tuple_cons T Ts) : T :=
  match t with tcons h _ => h end.
Definition ttl {T Ts : Type} (t : tuple_cons T Ts) : Ts :=
  match t with tcons _ r => r end.

#[export] Instance tuple_nil_init : ValueInit tuple_nil := tnil.
#[export] Instance tuple_cons_init (T Ts : Type)
  `{ValueInit T} `{ValueInit Ts} : ValueInit (tuple_cons T Ts) :=
  tcons value_init value_init.

#[export] Instance tuple_nil_lanes (A : arch) : Lanes A tuple_nil | 5 :=
  {| vec := tuple_nil;
     zero := tnil;
     splat := fun _ => tnil;
     get := fun _ _ => tnil;
     put := fun v _ _ => v;
     wf := fun _ => True |}.

#[export] Instance tuple_cons_lanes (A : arch) (T Ts : Type)
  `{Lanes A T} `{Lanes A Ts} : Lanes A (tuple_cons T Ts) | 5 :=
  {| vec := tuple_cons (vec A T) (vec A Ts);
     (* vec() = default *)
     zero := tcons zero zero;
     (* vec(std::tuple<Ts...> b) : data () {} *)
     splat := fun b => tcons zero zero;
     (* std::make_tuple(std::get<Is>(data).get(i)...) *)
     get := fun v i => tcons (get (thd v) i) (get (ttl v) i);
     (* detail::put1<Is>(data,i,v)... *)
     put := fun v i x =>
       tcons (put (thd v) i (thd x)) (put (ttl v) i (ttl x));
     wf := fun v => wf (thd v) /\ wf (ttl v) |}.

(** ** Loops over all lanes and the operator templates *)

(** [for (int i = 0; i < A::width; ++i) body(i);] on the state [S]. *)
Definition for_lanes {S : Type} (A : arch) (body : Z -> S -> S) (s : S) : S :=
  fold_left (fun s i => body i s) (seqZ 0 (width A)) s.

Section Operators.
Context {A : arch} {T U R : Type}.
Context {LT : Lanes A T} {LU : Lanes A U} {LR : Lanes A R}.

(** [RTS_BINOP_LHS(op)], vector op vector:
    [vec<decltype(l.get(0) op r.get(0)), A> result;
     for (int i=0;i<A::width;++i) result.put(i, l.get(i) op r.get(i));
     return result;]. *)
Definition binop_vv (op : T -> U -> R) (l : vec A T) (r : vec A U) :
    vec A R :=
  for_lanes A (fun i result => put result i (op (get l i) (get r i))) zero.

(** [RTS_BINOP_LHS(op)], vector op scalar. *)
Definition binop_vs (op : T -> U -> R) (l : vec A T) (r : U) : vec A R :=
  for_lanes A (fun i result => put result i (op (get l i) r)) zero.

(** [RTS_BINOP_RHS(op)], scalar op vector. *)
Definition binop_sv (op : T -> U -> R) (l : T) (r : vec A U) : vec A R :=
  for_lanes A (fun i result => put result i (op l (get r i))) zero.

End Operators.

(** [RTS_OP(op)], the unary operator template. *)
Definition unop {A : arch} {T R : Type} {LT : Lanes A T} {LR : Lanes A R}
    (op : T -> R) (l : vec A T) : vec A R :=
  for_lanes A (fun i result => put result i (op (get l i))) zero.

(** ** The specialisations of [vec<std::int32_t>] for [avx_4] and [avx2_8] *)

(** [x >> r] on a [std::int32_t], the scalar operator that the templates
    apply to each lane: for [0 <= r < 32] it keeps the sign (every compiler
    that provides [<immintrin.h>] defines it so, and C++20 requires it). *)
Definition int32_shr (x : int32) (r : Z) : int32 := Z.shiftr x r.

(** The intrinsics of [<immintrin.h>] that the specialisations bind their
    operators to.  They are built into the compiler, not part of the
    repository; each definition is the operation that Intel documents, on
    the packed 32-bit lanes of a [__m128i] (four lanes) or a [__m256i]
    (eight). *)
Module mm.

(** [_mm_add_epi32], [_mm256_add_epi32]: lane-wise sum, wrapping. *)
Definition add_epi32 (a b : list int32) : list int32 :=
  zip_with int32_add a b.

(** [_mm_srli_epi32], [_mm256_srli_epi32]: each lane shifted right by the
    count [imm8[7:0]] while shifting in zeros; a count above 31 gives 0. *)
Definition srli_epi32 (a : list int32) (imm8 : Z) : list int32 :=
  let count := Z.land imm8 255 in
  (fun x => if 31 <? count then 0 else s32 (Z.shiftr (u32 x) count)) <$> a.

End mm.

(** [template <> struct vec<std::int32_t, target::avx_4>] and
    [template <> struct vec<std::int32_t, target::avx2_8>], defined under
    [__AVX__] and [__AVX2__]:
    [union { __m128i m; std::int32_t d[4]; }] and
    [union { __m256i m; struct { __m128i l,h; }; std::int32_t d[8]; }].
    The register [m] and the array [d] are two views of the same lanes; the
    model keeps the lanes as [d] shows them. *)
Module avx_int32.

Definition t : Type := list int32.

(** On [avx_4]: [vec() : d{0,0,0,0}], [vec(std::int32_t i) : d{i,i,i,i}],
    [vec(a, b, c, d) : d{a,b,c,d}]. *)
Definition ctor_default_4 : t := [0; 0; 0; 0].
Definition ctor_scalar_4 (i : int32) : t := [i; i; i; i].
Definition ctor_lanes_4 (a b c d : int32) : t := [a; b; c; d].

(** On [avx2_8]: [vec() : d{0,0,0,0,0,0,0,0}],
    [vec(std::int32_t i) : d{i,i,i,i,i,i,i,i}]. *)
Definition ctor_default_8 : t := [0; 0; 0; 0; 0; 0; 0; 0].
Definition ctor_scalar_8 (i : int32) : t := [i; i; i; i; i; i; i; i].

(** [vec(__m128i m, detail::internal_t) : m(m)]. *)
Definition ctor_internal (m : list int32) : t := m.

(** [get(int i)]: [return d[i];] and [put(int i, std::int32_t v)]:
    [d[i] = v;]. *)
Definition get (v : t) (i : Z) : int32 := default 0 (v !! Z.to_nat i).
Definition put (v : t) (i : Z) (x : int32) : t := <[Z.to_nat i := x]> v.

(** [RTS_DEF_BINOP(+, _mm_add_epi32)]:
    [return vec(fun(m,rhs.m), detail::internal_tag);]. *)
Definition add (v rhs : t) : t := ctor_internal (mm.add_epi32 v rhs).

(** [RTS_DEF_SHIFT(>>, _mm_srli_epi32)], with [const int & rhs]:
    [auto r = fun(m,rhs); return vec(r, detail::internal_tag);].
    In an expression [v >> s] with [s] an [int], this member and the
    template of [RTS_BINOP_LHS(>>)] both take the operands as they are, and
    the member, which is no template, is the function called. *)
Definition shr (v : t) (rhs : Z) : t :=
  let r := mm.srli_epi32 v rhs in
  ctor_internal r.

End avx_int32.

(** The full specialisations are selected before the primary template. *)
#[export] Instance avx_4_int32_lanes : Lanes avx_4 int32 | 0 :=
  {| vec := avx_int32.t;
     zero := avx_int32.ctor_default_4;
     splat := avx_int32.ctor_scalar_4;
     get := avx_int32.get;
     put := avx_int32.put;
     wf := fun v => length v = 4%nat |}.

#[export] Instance avx2_8_int32_lanes : Lanes avx2_8 int32 | 0 :=
  {| vec := avx_int32.t;
     zero := avx_int32.ctor_default_8;
     splat := avx_int32.ctor_scalar_8;
     get := avx_int32.get;
     put := avx_int32.put;
     wf := fun v => length v = 8%nat |}.

(** ** Loader strategy ([detail::base_loader], [detail::loader]) *)

Module base_loader.

Section Loader.
Context {A : arch} {T : Type} {LT : Lanes A T} {LP : Lanes A ptr}.

(** The caller's memory: the element stored at each address. *)
Variable mem : ptr -> T.

(** [load_masked(vector & u, pointers v, mask m)]:
    [foreach_active(m, [&](int i) { u.put(i, *v.get(i)); });]. *)
Definition load_masked (u : vec A T) (v : vec A ptr) (m : mask.t) :
    res (vec A T) :=
  foreach_active m (fun i u => put u i (mem (get v i))) u.

(** [load(vector & u, pointers v)]:
    [for (int i=0;i<arch::width;++i) u.put(i,*v.get(i));]. *)
Definition load (u : vec A T) (v : vec A ptr) : vec A T :=
  for_lanes A (fun i u => put u i (mem (get v i))) u.

(** The arguments of a call to a loading member of the strategy. *)
Inductive arg : Type :=
| AVec (u : vec A T)
| APtrs (v : vec A ptr)
| AMask (m : mask.t).

(** A qualified call [detail::loader<T,A>::name(args...)] that fills a
    vector.  The default [loader] inherits its members from [base_loader]
    unchanged: [load_masked] takes [(vector &, pointers, mask)] and [load]
    takes [(vector &, pointers)]; no other member carries either name. *)
Definition call (name : string) (args : list arg) : res (vec A T) :=
  match args with
  | [AVec u; APtrs v; AMask m] =>
      if String.eqb name "load_masked" then load_masked u v m
      else NoMatchingFunction
  | [AVec u; APtrs v] =>
      if String.eqb name "load" then Ret (load u v)
      else NoMatchingFunction
  | _ => NoMatchingFunction
  end.

End Loader.

End base_loader.

Section FreeLoad.
Context {A : arch} {T : Type} {LT : Lanes A T} {LP : Lanes A ptr}.
Variable mem : ptr -> T.

(** [load(const vec<T*,A> & pointers, const vec<bool,A> & mask)]:
    [vec<T,A> result;
     detail::loader<T,A>::load(result, pointers, mask);
     return result;]. *)
Definition load_pointers_mask (pointers : vec A ptr) (msk : mask.t) :
    res (vec A T) :=
  let result : vec A T := zero in
  base_loader.call mem "load"
    [base_loader.AVec result; base_loader.APtrs pointers;
     base_loader.AMask msk].

(** The unmasked free function [load(const vec<T*,A> & pointers)] has no
    definition here: its exception specification,
    [noexcept(detail::loader<T,A>::load(vec<T,A>(),pointers))], hands a
    temporary to the [vector &] parameter of the loader's [load], so the
    function cannot be instantiated.  An unmasked gather is the loader's
    own [load], called on a vector the caller has declared. *)

End FreeLoad.

(** What the specification asks of a masked load into [dst], lane by lane:
    the lanes whose mask bit is set hold [*src[i]], the others keep their
    content. *)
Definition spec_masked_lane {A : arch} {T : Type} {LT : Lanes A T}
    {LP : Lanes A ptr} (mem : ptr -> T) (dst : vec A T) (src : vec A ptr)
    (m : mask.t) (i : Z) : T :=
  if mask.get m i then mem (get src i) else get dst i.

(** ** Auxiliary notions *)

(** The pointer [r] with its vector moved by [V] places. *)
Definition moved (V : Z) (r : vptr.t) : vptr.t :=
  vptr.Vptr (V + vptr.v r) (vptr.i r).

(** The lanes of a vector. *)
Definition in_range (A : arch) (i : Z) : Prop := 0 <= i < width A.

(** The vectors of the addition scenario, width 4 and 32-bit integers:
    [{1,2,3,4}], [{10,20,30,40}] and [{11,22,33,44}]. *)
Definition a1234 : list int32 :=
  generic_vec.ctor_init_list (generic 4) [1; 2; 3; 4].
Definition b1234 : list int32 :=
  generic_vec.ctor_init_list (generic 4) [10; 20; 30; 40].
Definition c1234 : list int32 :=
  generic_vec.ctor_init_list (generic 4) [11; 22; 33; 44].

(** The memory of the load scenario: the array [[100,200,300,400]], one
    element per address from 0, and the pointer vector addressing each
    element. *)
Definition mem1234 (a : ptr) : int32 :=
  nth (Z.to_nat a) [100; 200; 300; 400] 0.
Definition ptrs0123 : list ptr :=
  generic_vec.ctor_init_list (generic 4) [0; 1; 2; 3].

(** ** The lane contract *)

(** What callers rely on, for lanes in [[0, width)]: a default-constructed
    vector is representable and holds [T()] in every lane, [put] keeps the
    vector representable, writes its lane and leaves the others. *)
Class LanesLaws (A : arch) (T : Type) {VT : ValueInit T} {L : Lanes A T} :
    Prop := {
  zero_wf : wf (zero : vec A T);
  get_zero : forall i, 0 <= i < width A -> get (zero : vec A T) i = value_init;
  put_wf : forall (v : vec A T) i x,
    wf v -> 0 <= i < width A -> wf (put v i x);
  get_put_eq : forall (v : vec A T) i x,
    wf v -> 0 <= i < width A -> get (put v i x) i = x;
  get_put_ne : forall (v : vec A T) i j x,
    wf v -> 0 <= i < width A -> 0 <= j < width A -> i <> j ->
    get (put v i x) j = get v j
}.

(** A constructor from one scalar that fills every lane with it. *)
Definition broadcasts (A : arch) (T : Type) {L : Lanes A T} : Prop :=
  forall (x : T) (i : Z), 0 <= i < width A -> get (splat x : vec A T) i = x.

(** ** Masks built by the public operations *)

(** The mask vectors a caller can build: by the constructors (an
    initializer list holds at most [width] elements), by [put] at a lane in
    [[0, width)], and by the boolean operators and their compound forms. *)
Inductive reachable (A : arch) : mask.t -> Prop :=
| reach_default : reachable A mask.ctor_default
| reach_false : reachable A mask.ctor_false
| reach_true : reachable A (mask.ctor_true A)
| reach_bool (b : bool) : reachable A (mask.ctor_bool A b)
| reach_init_list (bs : list bool) :
    Z.of_nat (length bs) <= width A ->
    reachable A (mask.ctor_init_list bs)
| reach_vec (that_get : Z -> bool) : reachable A (mask.ctor_vec A that_get)
| reach_put (m : mask.t) (i : Z) (b : bool) :
    reachable A m -> 0 <= i < width A -> reachable A (mask.put m i b)
| reach_not (m : mask.t) : reachable A m -> reachable A (mask.not A m)
| reach_lnot (m : mask.t) : reachable A m -> reachable A (mask.lnot A m)
| reach_and (m rhs : mask.t) :
    reachable A m -> reachable A rhs -> reachable A (mask.and m rhs)
| reach_or (m rhs : mask.t) :
    reachable A m -> reachable A rhs -> reachable A (mask.or m rhs)
| reach_xor (m rhs : mask.t) :
    reachable A m -> reachable A rhs -> reachable A (mask.xor m rhs)
| reach_land (m rhs : mask.t) :
    reachable A m -> reachable A rhs -> reachable A (mask.land m rhs)
| reach_lor (m rhs : mask.t) :
    reachable A m -> reachable A rhs -> reachable A (mask.lor m rhs)
| reach_and_assign (m rhs : mask.t) :
    reachable A m -> reachable A rhs -> reachable A (mask.and_assign m rhs)
| reach_or_assign (m rhs : mask.t) :
    reachable A m -> reachable A rhs -> reachable A (mask.or_assign m rhs)
| reach_xor_assign (m rhs : mask.t) :
    reachable A m -> reachable A rhs -> reachable A (mask.xor_assign m rhs).

(** A data word that uses the [width] low bits only. *)
Definition bounded (A : arch) (m : mask.t) : Prop := 0 <= m < 2 ^ width A.

(** ** Further operations of [vec.hpp] *)

(** *** The remaining comparisons of [const_vptr] *)

Module vptr_order.

(** [operator >]:
    [lhs.v > rhs.v || (lhs.v == rhs.v && lhs.i > rhs.i)]. *)
Definition gtb (lhs rhs : vptr.t) : bool :=
  (vptr.v lhs >? vptr.v rhs)
  || ((vptr.v lhs =? vptr.v rhs) && (vptr.i lhs >? vptr.i rhs)).

(** [operator >=]:
    [lhs.v > rhs.v || (lhs.v == rhs.v && lhs.i >= rhs.i)]. *)
Definition geb (lhs rhs : vptr.t) : bool :=
  (vptr.v lhs >? vptr.v rhs)
  || ((vptr.v lhs =? vptr.v rhs) && (vptr.i lhs >=? vptr.i rhs)).

(** The flattened coordinate of the data model: vector position times
    width, plus lane. *)
Definition flat (A : arch) (p : vptr.t) : Z :=
  width A * vptr.v p + vptr.i p.

End vptr_order.

(** *** The remaining members of the primary template *)

Module primary.

Section Primary.
Context (A : arch) {T : Type} `{ValueInit T}.

(** [operator=(const T & rhs)]:
    [for (int i=0;i<A::width;++i) data[i] = rhs;]. *)
Definition assign_scalar (data : list T) (rhs : T) : list T :=
  for_lanes A (fun i data => generic_vec.put data i rhs) data.

(** [operator=(vec<U,A> & rhs)]:
    [for (int i=0;i<A::width;++i) data[i] = rhs.get(i);], with [conv] the
    conversion from [U] to [T] of the assignment. *)
Definition assign_vec {U : Type} {LU : Lanes A U} (conv : U -> T)
    (data : list T) (rhs : vec A U) : list T :=
  for_lanes A (fun i data => generic_vec.put data i (conv (get rhs i))) data.

(** [RTS_ASSIGN(op)], vector operand:
    [for (int i=0;i<A::width;++i) data[i] op rhs[i];], with [op] the effect
    of the compound assignment on an element. *)
Definition compound_vv {U : Type} {LU : Lanes A U} (op : T -> U -> T)
    (data : list T) (rhs : vec A U) : list T :=
  for_lanes A
    (fun i data =>
       generic_vec.put data i (op (generic_vec.get data i) (get rhs i)))
    data.

(** [RTS_ASSIGN(op)], scalar operand:
    [for (int i=0;i<A::width;++i) data[i] op rhs;]. *)
Definition compound_vs {U : Type} (op : T -> U -> T) (data : list T)
    (rhs : U) : list T :=
  for_lanes A
    (fun i data => generic_vec.put data i (op (generic_vec.get data i) rhs))
    data.

End Primary.

End primary.

(** *** Scatter: the storing half of the loader *)

(** [*p = x] on the caller's memory. *)
Definition mem_write {T : Type} (mem : ptr -> T) (p : ptr) (x : T) :
    ptr -> T :=
  fun a => if a =? p then x else mem a.

Module scatter.

Section Scatter.
Context {A : arch} {T : Type} {LT : Lanes A T} {LP : Lanes A ptr}.

(** [base_loader::store(pointers v, const vector & u)]:
    [for (int i=0;i<arch::width;++i) *v.get(i) = u.get(i);]. *)
Definition store (mem : ptr -> T) (v : vec A ptr) (u : vec A T) : ptr -> T :=
  for_lanes A (fun i mem => mem_write mem (get v i) (get u i)) mem.

(** [base_loader::store_masked(pointers v, const vector & u, mask m)]:
    [foreach_active(m, [&](int i) { *v.get(i) = u.get(i); });]. *)
Definition store_masked (mem : ptr -> T) (v : vec A ptr) (u : vec A T)
    (m : mask.t) : res (ptr -> T) :=
  foreach_active m (fun i mem => mem_write mem (get v i) (get u i)) mem.

(** The free functions [store(pointers, t)] and [store(pointers, t, mask)]:
    [detail::loader<T,A>::store(pointers, t);] and
    [detail::loader<T,A>::store_masked(pointers, t, mask);]. *)
Definition store_pointers (mem : ptr -> T) (pointers : vec A ptr)
    (t : vec A T) : ptr -> T :=
  store mem pointers t.

Definition store_pointers_mask (mem : ptr -> T) (pointers : vec A ptr)
    (t : vec A T) (msk : mask.t) : res (ptr -> T) :=
  store_masked mem pointers t msk.

(** The generic fallback [load(vec<T,A> & v, U mem, const vec<bool,A> &
    mask)]: [foreach_active(mask, [&](int i) { v.put(i,mem[i]); });], with
    [at_ i] the element [mem[i]] of the container. *)
Definition load_indexed (v : vec A T) (at_ : Z -> T) (msk : mask.t) :
    res (vec A T) :=
  foreach_active msk (fun i v => put v i (at_ i)) v.

End Scatter.

End scatter.

(** The lane that writes last to address [a] when the lanes [ls] are
    stored in order through the pointers [p]. *)
Fixpoint last_writer (p : Z -> ptr) (ls : list Z) (a : ptr) : option Z :=
  match ls with
  | [] => None
  | i :: ls' =>
      match last_writer p ls' a with
      | Some j => Some j
      | None => if a =? p i then Some i else None
      end
  end.

(** *** Output *)

(** [operator << (S & os, const vec<T,A> & v)]:
    [os << '{';
     for (int i =0;i<A::width;++i) {
       os << ' ' << v.get(i);
       if (i != A::width - 1) os << ',';
     }
     return os << '}';]
    with the stream as the text written so far and [show] the output
    operator of the element type. *)
Definition print_step {A : arch} {T : Type} {L : Lanes A T}
    (show : T -> string) (v : vec A T) (i : Z) (os : string) : string :=
  let os' := (os ++ " " ++ show (get v i))%string in
  if negb (i =? width A - 1) then (os' ++ ",")%string else os'.

Definition print {A : arch} {T : Type} {L : Lanes A T} (show : T -> string)
    (os : string) (v : vec A T) : string :=
  let os1 := (os ++ "{")%string in
  let os2 := for_lanes A (print_step show v) os1 in
  (os2 ++ "}")%string.

(** What the loop writes for one lane, without the separator. *)
Definition print_item {A : arch} {T : Type} {L : Lanes A T}
    (show : T -> string) (v : vec A T) (i : Z) : string :=
  (" " ++ show (get v i))%string.

(** The decimal digits of a lane index, for examples of output. *)
Definition show_digit (x : Z) : string :=
  String (Ascii.ascii_of_nat (48 + Z.to_nat x)) EmptyString.

(** * Properties *)

(** ** Fixed-width integers *)

Lemma s32_small (z : Z) : - 2 ^ 31 <= z < 2 ^ 31 -> s32 z = z.
Proof.
  intros Hz. unfold s32.
  rewrite Z.mod_small by lia. lia.
Qed.

Lemma u32_small (z : Z) : 0 <= z < 2 ^ 32 -> u32 z = z.
Proof. intros Hz. unfold u32. now rewrite Z.mod_small. Qed.

Lemma u32_range (z : Z) : 0 <= u32 z < 2 ^ 32.
Proof. unfold u32. apply Z.mod_pos_bound. lia. Qed.

(** ** Architecture descriptors *)

Lemma arch_okb_sound (A : arch) : arch_okb A = true -> arch_ok A.
Proof.
  unfold arch_okb, arch_ok. intros H.
  apply andb_prop in H as [H Hm]. apply andb_prop in H as [Hl Hu].
  apply Z.ltb_lt in Hl, Hu. apply Z.eqb_eq in Hm. lia.
Qed.

Lemma generic_4_ok : arch_ok (generic 4).
Proof. apply arch_okb_sound. reflexivity. Qed.

Lemma avx512_16_ok : arch_ok avx512_16.
Proof. apply arch_okb_sound. reflexivity. Qed.

(** The generic descriptors of width 4, 8 and 16 carry the constants that
    the AVX descriptors spell out. *)
Lemma generic_matches_avx :
  (width (generic 4), width_mask (generic 4), shift (generic 4),
   shift_mask (generic 4))
    = (width avx_4, width_mask avx_4, shift avx_4, shift_mask avx_4)
  /\ (width (generic 8), width_mask (generic 8), shift (generic 8),
      shift_mask (generic 8))
    = (width avx2_8, width_mask avx2_8, shift avx2_8, shift_mask avx2_8)
  /\ (width (generic 16), width_mask (generic 16), shift (generic 16),
      shift_mask (generic 16))
    = (width avx512_16, width_mask avx512_16, shift avx512_16,
       shift_mask avx512_16).
Proof. repeat split. Qed.

Lemma width_mask_range (A : arch) :
  arch_ok A -> 0 <= width_mask A < 2 ^ 32.
Proof.
  intros [Hw Hm]. rewrite Hm.
  assert (0 < 2 ^ width A) by (apply Z.pow_pos_nonneg; lia).
  assert (2 ^ width A <= 2 ^ 32) by (apply Z.pow_le_mono_r; lia).
  lia.
Qed.

(** ** Element pointers *)

Section VptrFacts.
Variable A : arch.
Hypothesis width_pos : 0 < width A < 2 ^ 31.

Import vptr.

(** The compound assignment and the commuted overload compute what [plus]
    computes. *)
Lemma vptr_add_assign_plus (p : t) (j : Z) : add_assign A p j = plus A p j.
Proof. reflexivity. Qed.

Lemma vptr_sub_assign_plus (p : t) (j : Z) :
  sub_assign A p j = plus A p (- j).
Proof. unfold sub_assign, plus. now rewrite <- Z.add_opp_r. Qed.

Lemma vptr_plus_l_plus (p : t) (j : Z) : plus_l A j p = plus A p j.
Proof. unfold plus_l, plus. now rewrite (Z.add_comm j). Qed.

Lemma rem_bounds (k : Z) : - width A < Z.rem k (width A) < width A.
Proof.
  pose proof (Z.rem_bound_abs k (width A)). lia.
Qed.

Lemma rem_range (k : Z) : - 2 ^ 31 <= Z.rem k (width A) < 2 ^ 31.
Proof. pose proof (rem_bounds k). lia. Qed.

(** When the flattened lane [i + j] is not negative, truncation and floor
    agree and [plus] is the arithmetic of the specification. *)
Lemma vptr_plus_nonneg (p : t) (j : Z) :
  0 <= i p + j -> plus A p j = spec_plus A p j.
Proof.
  intros Hk. unfold plus, spec_plus.
  rewrite s32_small by apply rem_range.
  rewrite Z.rem_mod_nonneg, Z.quot_div_nonneg by lia.
  pose proof (Z.mod_pos_bound (i p + j) (width A)) as Hb.
  destruct (Z.ltb_spec (( i p + j) mod width A) 0) as [Hneg | _]; [lia |].
  f_equal. rewrite Z.mod_eq by lia. lia.
Qed.

(** For a negative flattened lane that is not a multiple of the width,
    [plus] steps back one vector but adds [1] instead of [width] to the
    remainder. *)
Lemma vptr_plus_negative (p : t) (j : Z) :
  Z.rem (i p + j) (width A) < 0 ->
  plus A p j =
    Vptr (v p + Z.quot (i p + j) (width A) - 1) (Z.rem (i p + j) (width A) + 1)
  /\ spec_plus A p j =
    Vptr (v p + Z.quot (i p + j) (width A) - 1)
         (Z.rem (i p + j) (width A) + width A).
Proof.
  intros Hneg. unfold plus, spec_plus.
  rewrite s32_small by apply rem_range.
  destruct (Z.ltb_spec (Z.rem (i p + j) (width A)) 0) as [_ | Hge]; [| lia].
  split; [reflexivity |].
  pose proof (Z.quot_rem' (i p + j) (width A)) as Hqr.
  assert (Hfloor : (i p + j) / width A = Z.quot (i p + j) (width A) - 1).
  { symmetry.
    apply (Z.div_unique_pos _ _ _ (Z.rem (i p + j) (width A) + width A)).
    - pose proof (rem_bounds (i p + j)). lia.
    - lia. }
  rewrite Hfloor. f_equal; lia.
Qed.

(** The arithmetic of the specification keeps the lane in range and obeys
    the group laws. *)
Lemma spec_plus_lane_range (p : t) (k : Z) :
  0 <= i (spec_plus A p k) < width A.
Proof.
  unfold spec_plus. simpl.
  pose proof (Z.mod_pos_bound (i p + k) (width A)) as Hb.
  rewrite Z.mod_eq in Hb by lia. lia.
Qed.

Lemma spec_plus_assoc (p : t) (a b : Z) :
  spec_plus A (spec_plus A p a) b = spec_plus A p (a + b).
Proof.
  unfold spec_plus. simpl.
  set (w := width A). set (q := (i p + a) / w).
  assert (Hq : (i p + a - q * w + b) / w = (i p + (a + b)) / w - q).
  { replace (i p + a - q * w + b) with (i p + (a + b) + (- q) * w) by lia.
    rewrite Z.div_add by (unfold w; lia). lia. }
  rewrite Hq. f_equal; lia.
Qed.

Lemma spec_plus_diff (p : t) (a : Z) : diff A (spec_plus A p a) p = a.
Proof. unfold diff, spec_plus. simpl. lia. Qed.

(** [operator--] is the floor arithmetic for [k = -1] on every pointer whose
    lane is in range. *)
Lemma vptr_decr_spec (p : t) :
  0 <= i p < width A -> decr A p = spec_plus A p (-1).
Proof.
  intros Hi. unfold decr, spec_plus. simpl.
  destruct (Z.ltb_spec (i p - 1) 0) as [Hneg | Hge].
  - assert (Hq : (i p + -1) / width A = -1).
    { symmetry. apply (Z.div_unique_pos _ _ _ (width A - 1)); lia. }
    rewrite Hq. f_equal; lia.
  - rewrite Z.div_small by lia. f_equal; lia.
Qed.

(** [operator++] is the floor arithmetic for [k = 1] below the last lane. *)
Lemma vptr_incr_spec_inner (p : t) :
  0 <= i p < width A - 1 -> incr A p = spec_plus A p 1.
Proof.
  intros Hi. unfold incr, spec_plus. simpl.
  destruct (Z.ltb_spec (width A) (i p + 1)) as [Hgt | _]; [lia |].
  rewrite Z.div_small by lia. f_equal; lia.
Qed.

(** At the last lane [operator++] leaves the vector where it is and moves
    the lane to [width], because it tests [>] where [>=] is needed. *)
Lemma vptr_incr_last_lane (p : t) :
  i p = width A - 1 ->
  incr A p = Vptr (v p) (width A)
  /\ spec_plus A p 1 = Vptr (v p + 1) 0
  /\ invariant A (incr A p) = false.
Proof.
  intros Hi. unfold incr, spec_plus, invariant. simpl. rewrite Hi.
  replace (width A - 1 + 1) with (width A) by lia.
  rewrite Z.ltb_irrefl. simpl.
  rewrite Z_div_same_full by lia.
  rewrite Z.ltb_irrefl, andb_false_r.
  repeat split. f_equal; lia.
Qed.

End VptrFacts.

Section VptrLaws.
Variable A : arch.
Hypothesis width_pos : 0 < width A < 2 ^ 31.

Import vptr.

(** On offsets that keep the flattened lane non-negative the code obeys the
    laws of the specification. *)
Lemma vptr_plus_assoc_nonneg (p : t) (a b : Z) :
  0 <= i p -> 0 <= a -> 0 <= b ->
  plus A (plus A p a) b = plus A p (a + b).
Proof.
  intros Hi Ha Hb.
  rewrite (vptr_plus_nonneg A width_pos p a) by lia.
  pose proof (spec_plus_lane_range A width_pos p a) as Hr.
  rewrite vptr_plus_nonneg by (assumption || lia).
  rewrite vptr_plus_nonneg by (assumption || lia).
  now apply spec_plus_assoc.
Qed.

Lemma vptr_diff_plus_nonneg (p : t) (a : Z) :
  0 <= i p + a -> diff A (plus A p a) p = a.
Proof.
  intros Hk. rewrite vptr_plus_nonneg by assumption.
  apply spec_plus_diff.
Qed.

End VptrLaws.

(** Pointer arithmetic does not depend on where the vector array lies:
    every operation on [(V, i)] is the operation on [(0, i)] moved by [V]. *)
Lemma vptr_plus_moved (A : arch) (V i0 j : Z) :
  vptr.plus A (vptr.Vptr V i0) j = moved V (vptr.plus A (vptr.Vptr 0 i0) j).
Proof.
  unfold vptr.plus, moved. simpl.
  destruct (s32 (Z.rem (i0 + j) (width A)) <? 0); simpl; f_equal; lia.
Qed.

Lemma vptr_incr_moved (A : arch) (V i0 : Z) :
  vptr.incr A (vptr.Vptr V i0) = moved V (vptr.incr A (vptr.Vptr 0 i0)).
Proof.
  unfold vptr.incr, moved. simpl.
  destruct (width A <? i0 + 1); simpl; f_equal; lia.
Qed.

Lemma vptr_decr_moved (A : arch) (V i0 : Z) :
  vptr.decr A (vptr.Vptr V i0) = moved V (vptr.decr A (vptr.Vptr 0 i0)).
Proof.
  unfold vptr.decr, moved. simpl.
  destruct (i0 - 1 <? 0); simpl; f_equal; lia.
Qed.

(** Evaluate the pointer operations of the goal on closed arguments. *)
Ltac vptr_eval :=
  repeat match goal with
  | |- context [vptr.add_assign ?A ?p ?j] =>
      change (vptr.add_assign A p j) with (vptr.plus A p j)
  | |- context [vptr.sub_assign ?A ?p ?j] =>
      change (vptr.sub_assign A p j) with (vptr.plus A p (- j))
  | |- context [vptr.plus ?A (vptr.Vptr ?V ?i0) ?j] =>
      lazymatch V with
      | 0 => fail
      | _ => rewrite (vptr_plus_moved A V i0 j)
      end
  | |- context [vptr.incr ?A (vptr.Vptr ?V ?i0)] =>
      lazymatch V with
      | 0 => fail
      | _ => rewrite (vptr_incr_moved A V i0)
      end
  | |- context [vptr.decr ?A (vptr.Vptr ?V ?i0)] =>
      lazymatch V with
      | 0 => fail
      | _ => rewrite (vptr_decr_moved A V i0)
      end
  | |- context [vptr.plus ?A (vptr.Vptr 0 ?i0) ?j] =>
      let r := eval vm_compute in (vptr.plus A (vptr.Vptr 0 i0) j) in
      change (vptr.plus A (vptr.Vptr 0 i0) j) with r
  | |- context [vptr.incr ?A (vptr.Vptr 0 ?i0)] =>
      let r := eval vm_compute in (vptr.incr A (vptr.Vptr 0 i0)) in
      change (vptr.incr A (vptr.Vptr 0 i0)) with r
  | |- context [vptr.decr ?A (vptr.Vptr 0 ?i0)] =>
      let r := eval vm_compute in (vptr.decr A (vptr.Vptr 0 i0)) in
      change (vptr.decr A (vptr.Vptr 0 i0)) with r
  | |- context [moved ?V (vptr.Vptr ?a ?b)] =>
      change (moved V (vptr.Vptr a b)) with (vptr.Vptr (V + a) b)
  | |- context [vptr.Vptr (?V + 0) ?b] =>
      replace (V + 0) with V by lia
  | |- context [vptr.Vptr (?V + -1) ?b] =>
      replace (V + -1) with (V - 1) by lia
  end.

(** ** C1: [p + k] on a negative offset *)

(** C1.  The specification asks that [p + k] (and [p -= -k]) yield the
    pointer [(V + q, r)] of the floor division for every in-range pointer
    and every signed offset.  The code departs from it: with width 4, on the
    in-range pointer [(V, 0)] and the offset [-2], [operator +],
    [operator +=] and [operator -=] all return [(V - 1, -1)], a negative
    lane that fails the constructor's own assertion, where the
    specification requires [(V - 1, 2)]. *)
Theorem C1_plus_negative_offset_lane (V : Z) :
  vptr.invariant (generic 4) (vptr.Vptr V 0) = true
  /\ vptr.plus (generic 4) (vptr.Vptr V 0) (-2) = vptr.Vptr (V - 1) (-1)
  /\ vptr.add_assign (generic 4) (vptr.Vptr V 0) (-2) = vptr.Vptr (V - 1) (-1)
  /\ vptr.sub_assign (generic 4) (vptr.Vptr V 0) 2 = vptr.Vptr (V - 1) (-1)
  /\ vptr.spec_plus (generic 4) (vptr.Vptr V 0) (-2) = vptr.Vptr (V - 1) 2
  /\ vptr.invariant (generic 4) (vptr.plus (generic 4) (vptr.Vptr V 0) (-2))
     = false.
Proof.
  vptr_eval. repeat split.
Qed.

(** ** C2: group laws of pointer arithmetic *)

(** C2.  The specification asks for [(p + a) + b == p + (a + b)] and
    [(p + a) - p == a] on every in-range pointer.  The code departs from it:
    with width 4, [p = (V, 0)], [a = -1] and [b = 1], [(p + a) + b] is
    [(V - 1, 1)] while [p + (a + b)] is [p], so [operator ==] answers
    [false], and [(p + a) - p] is [-4], not [-1]. *)
Theorem C2_group_laws_negative_offset (V : Z) :
  vptr.plus (generic 4) (vptr.plus (generic 4) (vptr.Vptr V 0) (-1)) 1
    = vptr.Vptr (V - 1) 1
  /\ vptr.plus (generic 4) (vptr.Vptr V 0) (-1 + 1) = vptr.Vptr V 0
  /\ vptr.eqb
       (vptr.plus (generic 4) (vptr.plus (generic 4) (vptr.Vptr V 0) (-1)) 1)
       (vptr.plus (generic 4) (vptr.Vptr V 0) (-1 + 1)) = false
  /\ vptr.diff (generic 4) (vptr.plus (generic 4) (vptr.Vptr V 0) (-1))
       (vptr.Vptr V 0) = -4.
Proof.
  vptr_eval. repeat split.
  - unfold vptr.eqb, vptr.v, vptr.i.
    destruct (Z.eqb_spec (V - 1) V) as [Heq | _]; [lia | reflexivity].
  - unfold vptr.diff, vptr.v, vptr.i.
    change (width (generic 4)) with 4. lia.
Qed.

(** ** C3: increment and decrement *)

(** C3.  The specification asks that an increment be [p + 1] and a
    decrement be [p - 1], with the increment at lane [width - 1] giving
    [(V + 1, 0)].  The code departs from it in the body of the prefix
    [operator++] of [const_vptr]: with width 4, on the in-range pointer
    [(V, 3)] it returns [(V, 4)], an out-of-range lane that fails the
    constructor's own assertion, where the specification and [p + 1] of the
    code give [(V + 1, 0)].  The prefix [operator--] on [(V, 0)] returns
    [(V - 1, 3)], as the specification asks, where [p -= 1] of the code
    gives [(V - 1, 0)]. *)
Theorem C3_increment_decrement (V : Z) :
  vptr.invariant (generic 4) (vptr.Vptr V 3) = true
  /\ vptr.incr (generic 4) (vptr.Vptr V 3) = vptr.Vptr V 4
  /\ vptr.invariant (generic 4) (vptr.incr (generic 4) (vptr.Vptr V 3)) = false
  /\ vptr.spec_plus (generic 4) (vptr.Vptr V 3) 1 = vptr.Vptr (V + 1) 0
  /\ vptr.plus (generic 4) (vptr.Vptr V 3) 1 = vptr.Vptr (V + 1) 0
  /\ vptr.decr (generic 4) (vptr.Vptr V 0) = vptr.Vptr (V - 1) 3
  /\ vptr.spec_plus (generic 4) (vptr.Vptr V 0) (-1) = vptr.Vptr (V - 1) 3
  /\ vptr.sub_assign (generic 4) (vptr.Vptr V 0) 1 = vptr.Vptr (V - 1) 0.
Proof.
  assert (Hw : 0 < width (generic 4) < 2 ^ 31)
    by (vm_compute; split; reflexivity).
  split; [reflexivity |].
  split; [vptr_eval; reflexivity |].
  split; [vptr_eval; reflexivity |].
  split.
  { now destruct (vptr_incr_last_lane (generic 4) Hw (vptr.Vptr V 3) eq_refl)
      as (_ & Hspec & _). }
  split; [vptr_eval; reflexivity |].
  split; [vptr_eval; reflexivity |].
  split; [| vptr_eval; reflexivity].
  rewrite <- (vptr_decr_spec (generic 4) Hw (vptr.Vptr V 0))
    by (vm_compute; split; [intros Hc; discriminate Hc | reflexivity]).
  vptr_eval. reflexivity.
Qed.

(** ** Bits of the packed representation *)

Lemma testbit_below_pow2 (m n j : Z) :
  0 <= n -> 0 <= m < 2 ^ n -> n <= j -> Z.testbit m j = false.
Proof.
  intros Hn Hm Hj.
  rewrite <- (Z.mod_small m (2 ^ n)) by assumption.
  apply Z.mod_pow2_bits_high. lia.
Qed.

Lemma below_pow2_testbit (m n : Z) :
  0 <= n -> 0 <= m ->
  (forall j, n <= j -> Z.testbit m j = false) -> m < 2 ^ n.
Proof.
  intros Hn Hm Hhigh.
  assert (Heq : m mod 2 ^ n = m).
  { apply Z.bits_inj'. intros j Hj.
    rewrite Z.testbit_mod_pow2 by assumption.
    destruct (Z.ltb_spec j n) as [Hlt | Hge]; simpl; [reflexivity |].
    symmetry. now apply Hhigh. }
  rewrite <- Heq. apply Z.mod_pos_bound.
  apply Z.pow_pos_nonneg; lia.
Qed.

Lemma bit_ul_pow2 (i : Z) : 0 <= i < 64 -> bit_ul i = 2 ^ i.
Proof.
  intros Hi. unfold bit_ul, u64. rewrite Z.shiftl_1_l.
  apply Z.mod_small. split.
  - apply Z.pow_nonneg. lia.
  - apply Z.pow_lt_mono_r; lia.
Qed.

Lemma testbit_all_ones (n j : Z) :
  0 <= n -> 0 <= j -> Z.testbit (2 ^ n - 1) j = (j <? n).
Proof.
  intros Hn Hj.
  replace (2 ^ n - 1) with (Z.ones n) by (rewrite Z.ones_equiv; lia).
  now apply Z.testbit_ones_nonneg.
Qed.

Lemma testbit_not32 (x j : Z) :
  0 <= j -> Z.testbit (not32 x) j = xorb (Z.testbit x j) (j <? 32).
Proof.
  intros Hj. unfold not32.
  now rewrite Z.lxor_spec, testbit_all_ones by lia.
Qed.

Lemma testbit_not64 (x j : Z) :
  0 <= j -> Z.testbit (not64 x) j = xorb (Z.testbit x j) (j <? 64).
Proof.
  intros Hj. unfold not64.
  now rewrite Z.lxor_spec, testbit_all_ones by lia.
Qed.

Lemma testbit_u32 (x j : Z) :
  Z.testbit (u32 x) j = (j <? 32) && Z.testbit x j.
Proof. unfold u32. apply Z.testbit_mod_pow2. lia. Qed.

(** [get] reads bit [i] of the data word. *)
Lemma mask_get_testbit (m : mask.t) (i : Z) :
  0 <= i < 64 -> mask.get m i = Z.testbit m i.
Proof.
  intros Hi. unfold mask.get. rewrite bit_ul_pow2 by assumption.
  assert (Hland : Z.land m (2 ^ i) = if Z.testbit m i then 2 ^ i else 0).
  { apply Z.bits_inj'. intros j Hj.
    rewrite Z.land_spec, Z.pow2_bits_eqb by lia.
    destruct (Z.eqb_spec i j) as [-> | Hne].
    - destruct (Z.testbit m j).
      + now rewrite Z.pow2_bits_true.
      + now rewrite Z.bits_0.
    - rewrite andb_false_r.
      destruct (Z.testbit m i).
      + rewrite Z.pow2_bits_eqb by lia.
        destruct (Z.eqb_spec i j); [contradiction | reflexivity].
      + now rewrite Z.bits_0. }
  rewrite Hland.
  assert (0 < 2 ^ i) by (apply Z.pow_pos_nonneg; lia).
  destruct (Z.testbit m i).
  - destruct (Z.eqb_spec (2 ^ i) 0); [lia | reflexivity].
  - reflexivity.
Qed.

(** [put] writes bit [i] and keeps the others. *)
Lemma mask_put_testbit (m : mask.t) (i : Z) (b : bool) (j : Z) :
  mask.wf m -> 0 <= i < 32 -> 0 <= j ->
  Z.testbit (mask.put m i b) j = if j =? i then b else Z.testbit m j.
Proof.
  intros Hm Hi Hj. unfold mask.put.
  rewrite testbit_u32, bit_ul_pow2 by lia.
  assert (Hhigh : 32 <= j -> Z.testbit m j = false).
  { intros. apply (testbit_below_pow2 m 32); (assumption || lia). }
  destruct b.
  - rewrite Z.lor_spec, Z.pow2_bits_eqb by lia.
    rewrite (Z.eqb_sym i j).
    destruct (Z.eqb_spec j i) as [-> | Hne].
    + rewrite orb_true_r.
      destruct (Z.ltb_spec i 32); [reflexivity | lia].
    + rewrite orb_false_r.
      destruct (Z.ltb_spec j 32); simpl; [reflexivity |].
      symmetry. now apply Hhigh.
  - rewrite Z.land_spec, testbit_not64, Z.pow2_bits_eqb by lia.
    rewrite (Z.eqb_sym i j).
    destruct (Z.eqb_spec j i) as [-> | Hne].
    + destruct (Z.ltb_spec i 64); [| lia].
      simpl. now rewrite andb_false_r, andb_false_r.
    + destruct (Z.ltb_spec j 32) as [Hlt | Hge]; simpl.
      * destruct (Z.ltb_spec j 64); [| lia].
        simpl. now rewrite andb_true_r.
      * symmetry. now apply Hhigh.
Qed.

Lemma mask_put_wf (m : mask.t) (i : Z) (b : bool) : mask.wf (mask.put m i b).
Proof. unfold mask.put, mask.wf. apply u32_range. Qed.

Lemma mask_get_put_eq (m : mask.t) (i : Z) (b : bool) :
  mask.wf m -> 0 <= i < 32 -> mask.get (mask.put m i b) i = b.
Proof.
  intros Hm Hi.
  rewrite mask_get_testbit, mask_put_testbit by (assumption || lia).
  now rewrite Z.eqb_refl.
Qed.

Lemma mask_get_put_ne (m : mask.t) (i j : Z) (b : bool) :
  mask.wf m -> 0 <= i < 32 -> 0 <= j < 32 -> i <> j ->
  mask.get (mask.put m i b) j = mask.get m j.
Proof.
  intros Hm Hi Hj Hne.
  rewrite !mask_get_testbit, mask_put_testbit by (assumption || lia).
  destruct (Z.eqb_spec j i); [congruence | reflexivity].
Qed.

(** ** The mask invariant *)

Lemma fold_left_invariant {S X : Type} (P : S -> Prop) (f : S -> X -> S)
    (l : list X) (s : S) :
  P s -> (forall s x, In x l -> P s -> P (f s x)) -> P (fold_left f l s).
Proof.
  revert s. induction l as [| x l IH]; intros s Hs Hstep; simpl.
  - exact Hs.
  - apply IH.
    + apply Hstep; [now left | exact Hs].
    + intros s' x' Hin. apply Hstep. now right.
Qed.

Section MaskInvariant.
Variable A : arch.
Hypothesis A_ok : arch_ok A.

Lemma bounded_wf (m : mask.t) : bounded A m -> mask.wf m.
Proof.
  destruct A_ok as [Hw _]. unfold bounded, mask.wf. intros Hm.
  assert (2 ^ width A <= 2 ^ 32) by (apply Z.pow_le_mono_r; lia).
  lia.
Qed.

Lemma bounded_testbit (m : mask.t) :
  bounded A m <->
  0 <= m /\ forall j, width A <= j -> Z.testbit m j = false.
Proof.
  destruct A_ok as [Hw _]. unfold bounded. split.
  - intros Hm. split; [lia |].
    intros j Hj. apply (testbit_below_pow2 m (width A)); lia.
  - intros [Hm Hhigh]. split; [assumption |].
    apply below_pow2_testbit; (assumption || lia).
Qed.

(** A word within the [width] low bits satisfies
    [movemask() & ~width_mask == 0], and conversely for a 32-bit word. *)
Lemma bounded_invariant (m : mask.t) : bounded A m -> mask.invariant A m.
Proof.
  intros Hm. apply bounded_testbit in Hm as [Hm Hhigh].
  destruct A_ok as [Hw Hmask].
  unfold mask.invariant, mask.movemask. apply Z.bits_inj'. intros j Hj.
  rewrite Z.land_spec, testbit_not32, Hmask, testbit_all_ones, Z.bits_0
    by lia.
  destruct (Z.ltb_spec j (width A)) as [Hlt | Hge].
  - destruct (Z.ltb_spec j 32); [| lia]. simpl. apply andb_false_r.
  - now rewrite Hhigh.
Qed.

Lemma invariant_bounded (m : mask.t) :
  mask.wf m -> mask.invariant A m -> bounded A m.
Proof.
  intros Hwf Hinv. destruct A_ok as [Hw Hmask].
  apply bounded_testbit. split; [unfold mask.wf in Hwf; lia |].
  intros j Hj.
  destruct (Z.ltb_spec j 32) as [Hlt | Hge].
  - unfold mask.invariant, mask.movemask in Hinv.
    assert (Hbit : Z.testbit (Z.land m (not32 (width_mask A))) j = false)
      by (rewrite Hinv; apply Z.bits_0).
    rewrite Z.land_spec, testbit_not32, Hmask, testbit_all_ones in Hbit
      by lia.
    destruct (Z.ltb_spec j (width A)); [lia |].
    destruct (Z.ltb_spec j 32); [| lia].
    simpl in Hbit. now rewrite andb_true_r in Hbit.
  - apply (testbit_below_pow2 m 32); (assumption || lia).
Qed.

Lemma width_mask_bounded : bounded A (width_mask A).
Proof.
  destruct A_ok as [Hw Hmask]. unfold bounded. rewrite Hmask.
  assert (0 < 2 ^ width A) by (apply Z.pow_pos_nonneg; lia). lia.
Qed.

Lemma zero_bounded : bounded A 0.
Proof.
  destruct A_ok as [Hw _]. unfold bounded.
  assert (0 < 2 ^ width A) by (apply Z.pow_pos_nonneg; lia). lia.
Qed.

Lemma and_bounded (m rhs : mask.t) :
  bounded A m -> bounded A rhs -> bounded A (Z.land m rhs).
Proof.
  rewrite !bounded_testbit. intros [Hm Hmh] [Hr Hrh]. split.
  - apply Z.land_nonneg. now left.
  - intros j Hj. now rewrite Z.land_spec, Hmh.
Qed.

Lemma or_bounded (m rhs : mask.t) :
  bounded A m -> bounded A rhs -> bounded A (Z.lor m rhs).
Proof.
  rewrite !bounded_testbit. intros [Hm Hmh] [Hr Hrh]. split.
  - now apply Z.lor_nonneg.
  - intros j Hj. now rewrite Z.lor_spec, Hmh, Hrh.
Qed.

Lemma xor_bounded (m rhs : mask.t) :
  bounded A m -> bounded A rhs -> bounded A (Z.lxor m rhs).
Proof.
  rewrite !bounded_testbit. intros [Hm Hmh] [Hr Hrh]. split.
  - apply Z.lxor_nonneg. tauto.
  - intros j Hj. now rewrite Z.lxor_spec, Hmh, Hrh.
Qed.

Lemma put_bounded (m : mask.t) (i : Z) (b : bool) :
  bounded A m -> 0 <= i < width A -> bounded A (mask.put m i b).
Proof.
  intros Hm Hi. pose proof (bounded_wf m Hm) as Hwf.
  destruct A_ok as [Hw _].
  apply bounded_testbit in Hm as [Hm Hhigh].
  apply bounded_testbit. split.
  - pose proof (mask_put_wf m i b) as Hp. unfold mask.wf in Hp. lia.
  - intros j Hj. rewrite mask_put_testbit by (assumption || lia).
    destruct (Z.eqb_spec j i); [lia | now apply Hhigh].
Qed.

Lemma set_bit_bounded (m : mask.t) (i : Z) :
  bounded A m -> 0 <= i < width A -> bounded A (u32 (Z.lor m (bit_ul i))).
Proof.
  intros Hm Hi. now apply (put_bounded m i true).
Qed.

Lemma ctor_vec_bounded (that_get : Z -> bool) :
  bounded A (mask.ctor_vec A that_get).
Proof.
  unfold mask.ctor_vec. apply fold_left_invariant.
  - apply zero_bounded.
  - intros data i Hin Hdata.
    apply list_elem_of_In, elem_of_seqZ in Hin.
    destruct (that_get i); [| assumption].
    apply set_bit_bounded; (assumption || lia).
Qed.

(** The initializer-list loop: while the running bit [i] is [2^k], the data
    stays below [2^k], and the [n] list elements use bits [k .. k+n-1]. *)
Lemma init_list_loop_bound (bs : list bool) :
  forall (k i data : Z),
    0 <= k -> k + Z.of_nat (length bs) <= 31 ->
    (bs <> [] -> i = 2 ^ k) ->
    0 <= data < 2 ^ k ->
    0 <= mask.init_list_loop bs i data < 2 ^ (k + Z.of_nat (length bs)).
Proof.
  induction bs as [| b bs IH]; intros k i data Hk Hlen Hi Hdata.
  - simpl. now rewrite Z.add_0_r.
  - specialize (Hi ltac:(discriminate)). subst i.
    cbn [mask.init_list_loop length] in *.
    rewrite Nat2Z.inj_succ in *.
    replace (k + Z.succ (Z.of_nat (length bs)))
      with ((k + 1) + Z.of_nat (length bs)) by lia.
    assert (Hpow : 0 < 2 ^ k) by (apply Z.pow_pos_nonneg; lia).
    assert (Hpow31 : 2 ^ k < 2 ^ 31) by (apply Z.pow_lt_mono_r; lia).
    assert (Hsucc : 2 ^ (k + 1) = 2 * 2 ^ k)
      by (rewrite Z.pow_add_r by lia; lia).
    apply IH.
    + lia.
    + lia.
    + intros Hne. rewrite Z.shiftl_mul_pow2 by lia.
      assert (0 < Z.of_nat (length bs))
        by (destruct bs; [congruence | simpl; lia]).
      assert (2 ^ (k + 1) < 2 ^ 31) by (apply Z.pow_lt_mono_r; lia).
      rewrite s32_small by lia. lia.
    + destruct b; [| lia].
      rewrite (u32_small (2 ^ k)) by lia.
      assert (Hlor : 0 <= Z.lor data (2 ^ k) < 2 ^ (k + 1)).
      { split; [apply Z.lor_nonneg; lia |].
        apply below_pow2_testbit; [lia | apply Z.lor_nonneg; lia |].
        intros j Hj. rewrite Z.lor_spec, Z.pow2_bits_eqb by lia.
        rewrite (testbit_below_pow2 data k) by lia.
        destruct (Z.eqb_spec k j); [lia | reflexivity]. }
      assert (2 ^ (k + 1) <= 2 ^ 32) by (apply Z.pow_le_mono_r; lia).
      rewrite u32_small by lia. exact Hlor.
Qed.

Lemma ctor_init_list_bounded (bs : list bool) :
  Z.of_nat (length bs) <= width A -> bounded A (mask.ctor_init_list bs).
Proof.
  intros Hlen. destruct A_ok as [Hw _].
  pose proof (init_list_loop_bound bs 0 1 0) as Hb.
  rewrite Z.pow_0_r, Z.add_0_l in Hb.
  specialize (Hb ltac:(lia) ltac:(lia) ltac:(reflexivity) ltac:(lia)).
  unfold bounded, mask.ctor_init_list. split; [lia |].
  assert (2 ^ Z.of_nat (length bs) <= 2 ^ width A)
    by (apply Z.pow_le_mono_r; lia).
  lia.
Qed.

Lemma reachable_bounded (m : mask.t) : reachable A m -> bounded A m.
Proof.
  induction 1;
    unfold mask.ctor_default, mask.ctor_false, mask.ctor_true, mask.not,
      mask.lnot, mask.and, mask.or, mask.xor, mask.land, mask.lor,
      mask.and_assign, mask.or_assign, mask.xor_assign;
    auto using zero_bounded, width_mask_bounded, and_bounded, or_bounded,
      xor_bounded, put_bounded, ctor_vec_bounded, ctor_init_list_bounded.
  destruct b; [apply width_mask_bounded | apply zero_bounded].
Qed.

End MaskInvariant.

(** ** C4: [any] and [all] *)

(** C4.  For every mask vector [m], [any(m)] is true exactly when
    [movemask(m) != 0], and [all(m)] is true exactly when
    [movemask(m) == width_mask]. *)
Theorem C4_any_all_movemask (A : arch) (m : mask.t) :
  (any m <> 0 <-> movemask m <> 0)
  /\ (all A m <> 0 <-> movemask m = width_mask A).
Proof.
  unfold any, all, b2z. split.
  - destruct (Z.eqb_spec (movemask m) 0) as [Heq | Hne]; simpl; split;
      intros; (congruence || lia).
  - destruct (Z.eqb_spec (movemask m) (width_mask A)) as [Heq | Hne]; split;
      intros; (congruence || lia).
Qed.

Section AnyAllLanes.
Variable A : arch.
Hypothesis A_ok : arch_ok A.

(** In terms of lanes: [any] holds when some lane is set, [all] when every
    lane is set. *)
Lemma any_some_lane (m : mask.t) :
  bounded A m ->
  (any m <> 0 <-> exists i, 0 <= i < width A /\ mask.get m i = true).
Proof.
  intros Hm. destruct A_ok as [Hw _].
  pose proof (proj1 (bounded_testbit A A_ok m) Hm) as [Hnn Hhigh].
  unfold any, movemask, mask.movemask, b2z. split.
  - destruct (Z.eqb_spec m 0) as [Heq | Hne]; simpl; [congruence |].
    intros _. exists (Z.log2 m).
    assert (Hpos : 0 < m) by lia.
    pose proof (Z.bit_log2 m Hpos) as Hbit.
    pose proof (Z.log2_nonneg m) as Hl.
    assert (Z.log2 m < width A).
    { destruct (Z_lt_ge_dec (Z.log2 m) (width A)) as [Hlt | Hge];
        [assumption |].
      rewrite Hhigh in Hbit by lia. discriminate. }
    split; [lia |].
    rewrite mask_get_testbit by lia. exact Hbit.
  - intros (i & Hi & Hget).
    rewrite mask_get_testbit in Hget by lia.
    destruct (Z.eqb_spec m 0) as [Heq | Hne]; simpl; [| lia].
    subst m. rewrite Z.bits_0 in Hget. discriminate.
Qed.

Lemma all_every_lane (m : mask.t) :
  bounded A m ->
  (all A m <> 0 <-> forall i, 0 <= i < width A -> mask.get m i = true).
Proof.
  intros Hm. destruct A_ok as [Hw Hmask].
  pose proof (proj1 (bounded_testbit A A_ok m) Hm) as [Hnn Hhigh].
  unfold all, movemask, mask.movemask, b2z. split.
  - destruct (Z.eqb_spec m (width_mask A)) as [Heq | Hne]; [| congruence].
    intros _ i Hi. rewrite mask_get_testbit by lia.
    rewrite Heq, Hmask, testbit_all_ones by lia.
    destruct (Z.ltb_spec i (width A)); [reflexivity | lia].
  - intros Hall.
    assert (Heq : m = width_mask A).
    { rewrite Hmask. apply Z.bits_inj'. intros j Hj.
      rewrite testbit_all_ones by lia.
      destruct (Z.ltb_spec j (width A)) as [Hlt | Hge].
      - rewrite <- (mask_get_testbit m j) by lia. apply Hall. lia.
      - now apply Hhigh. }
    destruct (Z.eqb_spec m (width_mask A)); [lia | contradiction].
Qed.

End AnyAllLanes.

(** ** C9: the invariant on reachable masks *)

(** C9.  Every mask vector built by the public operations, with
    initializer lists of at most [width] elements and [put] at lanes in
    [[0, width)], satisfies [movemask() & ~width_mask == 0]: no bit above
    lane [width - 1] is set in the packed representation. *)
Theorem C9_reachable_invariant (A : arch) (m : mask.t) :
  arch_ok A -> reachable A m -> mask.invariant A m.
Proof.
  intros A_ok Hreach.
  apply (bounded_invariant A A_ok).
  now apply reachable_bounded.
Qed.

Lemma C9_reachable_invariant_witness :
  mask.invariant (generic 4)
    (mask.not (generic 4)
       (mask.put (mask.ctor_init_list [true; false; true; false]) 1 true)).
Proof.
  apply (C9_reachable_invariant (generic 4)).
  - apply arch_okb_sound. reflexivity.
  - apply reach_not. apply reach_put.
    + apply reach_init_list. vm_compute. intros Hc. discriminate Hc.
    + vm_compute. split; [intros Hc; discriminate Hc | reflexivity].
Defined.

(** C9 does not extend to longer initializer lists: with width 4 the list
    [{false, false, false, false, true}] is accepted by the constructor and
    sets bit 4, above the last lane. *)
Lemma C9_init_list_counterexample :
  mask.ctor_init_list [false; false; false; false; true] = 16
  /\ ~ mask.invariant (generic 4)
       (mask.ctor_init_list [false; false; false; false; true]).
Proof.
  split; [reflexivity |].
  unfold mask.invariant. vm_compute. discriminate.
Qed.

(** ** Active-lane enumeration *)

Lemma filter_none {X : Type} (f : X -> bool) (l : list X) :
  (forall x, In x l -> f x = false) -> List.filter f l = [].
Proof.
  induction l as [| x l IH]; intros Hall; simpl; [reflexivity |].
  rewrite (Hall x) by now left.
  apply IH. intros y Hy. apply Hall. now right.
Qed.

Lemma filter_strongly_sorted {X : Type} (R : X -> X -> Prop) (f : X -> bool)
    (l : list X) :
  StronglySorted R l -> StronglySorted R (List.filter f l).
Proof.
  induction 1 as [| x l Hsorted IH Hall]; simpl; [constructor |].
  destruct (f x); [| exact IH].
  constructor; [exact IH |].
  rewrite List.Forall_forall in *. intros y Hy.
  apply List.filter_In in Hy as [Hy _]. now apply Hall.
Qed.

Lemma seqZ_strongly_sorted (n : nat) :
  forall a, StronglySorted Z.lt (seqZ a (Z.of_nat n)).
Proof.
  induction n as [| n IH]; intros a.
  - rewrite seqZ_nil by lia. constructor.
  - rewrite seqZ_cons by lia.
    replace (Z.pred (Z.of_nat (S n))) with (Z.of_nat n) by lia.
    constructor; [apply IH |].
    apply Forall_seqZ. intros; lia.
Qed.

Lemma active_lanes_sorted (m : Z) : StronglySorted Z.lt (active_lanes m).
Proof.
  unfold active_lanes. apply filter_strongly_sorted.
  exact (seqZ_strongly_sorted 32 0).
Qed.

Lemma active_lanes_In (m i : Z) :
  In i (active_lanes m) <-> 0 <= i < 32 /\ Z.testbit m i = true.
Proof.
  unfold active_lanes. rewrite List.filter_In, <- list_elem_of_In, elem_of_seqZ.
  intuition lia.
Qed.

Lemma active_lanes_length (m : Z) : (length (active_lanes m) <= 32)%nat.
Proof.
  unfold active_lanes.
  pose proof (List.filter_length_le (Z.testbit m) (seqZ 0 32)) as Hle.
  now rewrite length_seqZ in Hle.
Qed.

(** The scan stops at the first set bit at or after its starting point. *)
Lemma bsf_from_first (fuel : nat) :
  forall (i m : Z),
    (exists j, i <= j < i + Z.of_nat fuel /\ Z.testbit m j = true) ->
    i <= bsf_from fuel i m < i + Z.of_nat fuel
    /\ Z.testbit m (bsf_from fuel i m) = true
    /\ forall j, i <= j < bsf_from fuel i m -> Z.testbit m j = false.
Proof.
  induction fuel as [| fuel IH]; intros i m (j & Hj & Hbit).
  - lia.
  - cbn [bsf_from]. destruct (Z.testbit m i) eqn:Hi.
    + repeat split; (lia || assumption).
    + assert (Hne : j <> i) by (intros ->; congruence).
      destruct (IH (i + 1) m) as (Hr & Hset & Hclear).
      { exists j. split; [lia | assumption]. }
      repeat split; try (lia || assumption).
      intros k Hk. destruct (Z.eq_dec k i) as [-> | Hki]; [assumption |].
      apply Hclear. lia.
Qed.

Lemma bsf_lowest (m : Z) :
  0 < m < 2 ^ 32 ->
  0 <= bsf m < 32
  /\ Z.testbit m (bsf m) = true
  /\ forall j, 0 <= j < bsf m -> Z.testbit m j = false.
Proof.
  intros Hm. unfold bsf.
  destruct (bsf_from_first 32 0 m) as (Hr & Hset & Hclear).
  - exists (Z.log2 m). split.
    + pose proof (Z.log2_nonneg m).
      assert (Z.log2 m < 32) by (apply Z.log2_lt_pow2; lia). lia.
    + apply Z.bit_log2. lia.
  - repeat split; (lia || assumption).
Qed.

Lemma clearbit_range (m i : Z) :
  0 <= m < 2 ^ 32 -> 0 <= Z.clearbit m i < 2 ^ 32.
Proof.
  intros Hm.
  assert (Hnn : 0 <= Z.clearbit m i).
  { rewrite Z.clearbit_spec'. apply Z.ldiff_nonneg. left. lia. }
  split; [exact Hnn |].
  apply below_pow2_testbit; [lia | exact Hnn |].
  intros j Hj. rewrite Z.clearbit_eqb.
  rewrite (testbit_below_pow2 m 32) by lia. reflexivity.
Qed.

Lemma active_lanes_zero : active_lanes 0 = [].
Proof. reflexivity. Qed.

(** Extracting the lowest set bit yields the head of the enumeration and
    leaves its tail. *)
Lemma active_lanes_bscf (m : Z) :
  0 < m < 2 ^ 32 ->
  active_lanes m = fst (bscf m) :: active_lanes (snd (bscf m)).
Proof.
  intros Hm. unfold bscf, fst, snd.
  destruct (bsf_lowest m Hm) as (Hr & Hset & Hclear).
  set (i := bsf m) in *. unfold active_lanes.
  replace 32 with (i + (32 - i)) by lia.
  rewrite seqZ_app by lia.
  rewrite (seqZ_cons (0 + i)) by lia.
  rewrite !List.filter_app. cbn [List.filter].
  rewrite Z.add_0_l, Hset, Z.clearbit_eq.
  rewrite !(filter_none _ (seqZ 0 i)).
  - cbn [app]. f_equal. apply List.filter_ext_in.
    intros j Hj. apply list_elem_of_In, elem_of_seqZ in Hj.
    rewrite Z.clearbit_neq by lia. reflexivity.
  - intros j Hj. apply list_elem_of_In, elem_of_seqZ in Hj.
    rewrite Z.clearbit_eqb, Hclear by lia. reflexivity.
  - intros j Hj. apply list_elem_of_In, elem_of_seqZ in Hj.
    apply Hclear. lia.
Qed.

Lemma bscf_range (m : Z) :
  0 <= m < 2 ^ 32 -> 0 <= snd (bscf m) < 2 ^ 32.
Proof. intros Hm. unfold bscf, snd. now apply clearbit_range. Qed.

Lemma foreach_loop_zero {S : Type} (f : Z -> S -> S) (fuel : nat) (s : S) :
  foreach_loop fuel 0 f s = Ret s.
Proof. destruct fuel; reflexivity. Qed.

Lemma foreach_loop_step {S : Type} (f : Z -> S -> S) (fuel : nat) (m : Z)
    (s : S) :
  m <> 0 ->
  foreach_loop (Datatypes.S fuel) m f s
    = foreach_loop fuel (snd (bscf m)) f (f (fst (bscf m)) s).
Proof.
  intros Hne. cbn [foreach_loop].
  destruct (Z.eqb_spec m 0) as [Heq | _]; [contradiction |].
  destruct (bscf m) as [i m']. reflexivity.
Qed.

Lemma fold_left_cons {S X : Type} (g : S -> X -> S) (x : X) (l : list X)
    (s : S) :
  fold_left g (x :: l) s = fold_left g l (g s x).
Proof. reflexivity. Qed.

Lemma length_cons_le {X : Type} (x : X) (l : list X) (n : nat) :
  (length (x :: l) <= S n)%nat -> (length l <= n)%nat.
Proof. simpl. lia. Qed.

Lemma length_cons_not_le_0 {X : Type} (x : X) (l : list X) :
  ~ (length (x :: l) <= 0)%nat.
Proof. simpl. lia. Qed.

(** With fuel for every set bit the loop returns, having applied [f] to
    the set bits in the order of the enumeration. *)
Lemma foreach_loop_run {S : Type} (f : Z -> S -> S) (fuel : nat) :
  forall (m : Z) (s : S),
    0 <= m < 2 ^ 32 ->
    (length (active_lanes m) <= fuel)%nat ->
    foreach_loop fuel m f s
      = Ret (fold_left (fun s i => f i s) (active_lanes m) s).
Proof.
  induction fuel as [| fuel IH]; intros m s Hm Hlen.
  - destruct (Z.eq_dec m 0) as [Heq | Hne].
    + subst m. rewrite active_lanes_zero. apply foreach_loop_zero.
    + assert (Hpos : 0 < m < 2 ^ 32) by lia.
      rewrite (active_lanes_bscf m Hpos) in Hlen.
      now apply length_cons_not_le_0 in Hlen.
  - destruct (Z.eq_dec m 0) as [Heq | Hne].
    + subst m. rewrite active_lanes_zero. apply foreach_loop_zero.
    + assert (Hpos : 0 < m < 2 ^ 32) by lia.
      rewrite foreach_loop_step by assumption.
      rewrite (active_lanes_bscf m Hpos) in Hlen |- *.
      rewrite fold_left_cons.
      apply IH; [now apply bscf_range | now apply length_cons_le in Hlen].
Qed.

Lemma foreach_active_run {S : Type} (f : Z -> S -> S) (m : mask.t) (s : S) :
  mask.wf m ->
  foreach_active m f s
    = Ret (fold_left (fun s i => f i s) (active_lanes (movemask m)) s).
Proof.
  intros Hm. unfold foreach_active.
  apply foreach_loop_run; [exact Hm | apply active_lanes_length].
Qed.

(** ** C5: [foreach_active] *)

(** C5.  For every mask vector [m] and every callable [f] (acting on a
    state of any type), [foreach_active(m, f)] returns, and the calls it
    makes are [f(i)] for the indices [i] of the enumeration
    [active_lanes (movemask m)], in that order; the enumeration is strictly
    ascending, so no index occurs twice, and it holds exactly the indices
    whose bit is set in [movemask(m)]. *)
Theorem C5_foreach_active {S : Type} (f : Z -> S -> S) (s : S) (m : mask.t) :
  mask.wf m ->
  foreach_active m f s
    = Ret (fold_left (fun s i => f i s) (active_lanes (movemask m)) s)
  /\ StronglySorted Z.lt (active_lanes (movemask m))
  /\ NoDup (active_lanes (movemask m))
  /\ (forall i,
        In i (active_lanes (movemask m)) <-> Z.testbit (movemask m) i = true).
Proof.
  intros Hm. split; [now apply foreach_active_run |].
  split; [apply active_lanes_sorted |].
  split.
  - unfold active_lanes. apply NoDup_ListNoDup, List.NoDup_filter.
    apply NoDup_ListNoDup, NoDup_seqZ.
  - intros i. rewrite active_lanes_In. split; [tauto |].
    intros Hbit. split; [| assumption].
    destruct (Z_lt_ge_dec i 0) as [Hneg | Hnn].
    { rewrite Z.testbit_neg_r in Hbit by lia. discriminate. }
    destruct (Z_lt_ge_dec i 32) as [Hlt | Hge]; [lia |].
    unfold movemask, mask.movemask in Hbit.
    rewrite (testbit_below_pow2 m 32) in Hbit by (assumption || lia).
    discriminate.
Qed.

(** The scenario of the specification: the mask [{true,false,true,false}]
    packs to 5 and [foreach_active] calls [f(0)] then [f(2)]. *)
Lemma C5_foreach_active_witness :
  mask.ctor_init_list [true; false; true; false] = 5
  /\ foreach_active (mask.ctor_init_list [true; false; true; false])
       (fun i calls => calls ++ [i]) []
     = Ret [0; 2].
Proof.
  split; [reflexivity |].
  refine (eq_trans
    (proj1 (C5_foreach_active (fun i calls => calls ++ [i]) []
              (mask.ctor_init_list [true; false; true; false]) _)) _).
  - vm_compute. split; [intros Hc; discriminate Hc | reflexivity].
  - reflexivity.
Defined.

(** ** The primary template *)

Section GenericVec.
Variable A : arch.
Context {T : Type} `{ValueInit T}.

Lemma generic_default_wf : generic_vec.wf A (generic_vec.ctor_default A).
Proof.
  unfold generic_vec.wf, generic_vec.ctor_default. apply length_replicate.
Qed.

Lemma generic_put_wf (data : list T) (i : Z) (x : T) :
  generic_vec.wf A data -> generic_vec.wf A (generic_vec.put data i x).
Proof.
  unfold generic_vec.wf, generic_vec.put. intros Hlen.
  now rewrite length_insert.
Qed.

Lemma generic_get_default (i : Z) :
  generic_vec.get (generic_vec.ctor_default A) i = value_init.
Proof.
  unfold generic_vec.get, generic_vec.ctor_default.
  destruct (replicate (Z.to_nat (width A)) value_init !! Z.to_nat i)
    as [x |] eqn:Hx; [| reflexivity].
  apply lookup_replicate in Hx as [-> _]. reflexivity.
Qed.

Lemma generic_get_scalar (u : T) (i : Z) :
  0 <= i < width A ->
  generic_vec.get (generic_vec.ctor_scalar A u) i = u.
Proof.
  intros Hi. unfold generic_vec.get, generic_vec.ctor_scalar,
    generic_vec.ctor_default.
  rewrite list_lookup_fmap, lookup_replicate_2 by lia. reflexivity.
Qed.

Lemma generic_get_put_eq (data : list T) (i : Z) (x : T) :
  generic_vec.wf A data -> 0 <= i < width A ->
  generic_vec.get (generic_vec.put data i x) i = x.
Proof.
  unfold generic_vec.wf, generic_vec.get, generic_vec.put. intros Hlen Hi.
  rewrite list_lookup_insert_eq by lia. reflexivity.
Qed.

Lemma generic_get_put_ne (data : list T) (i j : Z) (x : T) :
  0 <= i -> 0 <= j -> i <> j ->
  generic_vec.get (generic_vec.put data i x) j = generic_vec.get data j.
Proof.
  unfold generic_vec.get, generic_vec.put. intros Hi Hj Hne.
  rewrite list_lookup_insert_ne by lia. reflexivity.
Qed.

End GenericVec.

(** ** The lane contract holds for every form of vector *)

Lemma generic_laws (A : arch) (T : Type) `{ValueInit T} :
  LanesLaws A T (L := generic_lanes A T).
Proof.
  split; cbn [wf zero get put generic_lanes].
  - apply generic_default_wf.
  - intros i _. apply generic_get_default.
  - intros v i x Hv _. now apply (generic_put_wf A).
  - intros v i x Hv Hi. now apply (generic_get_put_eq A).
  - intros v i j x _ Hi Hj Hne. apply generic_get_put_ne; lia.
Qed.

Lemma mask_laws (A : arch) : arch_ok A -> LanesLaws A bool (L := mask_lanes A).
Proof.
  intros [Hw _]. split; cbn [wf zero get put mask_lanes].
  - unfold mask.wf, mask.ctor_default. lia.
  - intros i Hi. rewrite mask_get_testbit by lia. apply Z.bits_0.
  - intros v i x _ _. apply mask_put_wf.
  - intros v i x Hv Hi. apply mask_get_put_eq; (assumption || lia).
  - intros v i j x Hv Hi Hj Hne. apply mask_get_put_ne; (assumption || lia).
Qed.

Lemma pair_laws (A : arch) (S T : Type) `{ValueInit S} `{ValueInit T}
    {LS : Lanes A S} {LT : Lanes A T} :
  LanesLaws A S -> LanesLaws A T -> LanesLaws A (S * T).
Proof.
  intros HS HT. split; cbn [wf zero get put pair_lanes fst snd].
  - split; apply zero_wf.
  - intros i Hi. unfold value_init, pair_init.
    f_equal; now apply get_zero.
  - intros [v1 v2] i [x1 x2] [Hv1 Hv2] Hi. cbn [fst snd] in *.
    split; now apply put_wf.
  - intros [v1 v2] i [x1 x2] [Hv1 Hv2] Hi. cbn [fst snd] in *.
    f_equal; now apply get_put_eq.
  - intros [v1 v2] i j [x1 x2] [Hv1 Hv2] Hi Hj Hne. cbn [fst snd] in *.
    f_equal; now apply get_put_ne.
Qed.

Lemma tuple_nil_laws (A : arch) : LanesLaws A tuple_nil.
Proof.
  split; cbn [wf zero get put tuple_nil_lanes]; try easy.
  intros v i x _ _. now destruct x.
Qed.

Lemma tuple_cons_laws (A : arch) (T Ts : Type) `{ValueInit T} `{ValueInit Ts}
    {LT : Lanes A T} {LTs : Lanes A Ts} :
  LanesLaws A T -> LanesLaws A Ts -> LanesLaws A (tuple_cons T Ts).
Proof.
  intros HT HTs. split; cbn [wf zero get put tuple_cons_lanes thd ttl].
  - split; apply zero_wf.
  - intros i Hi. unfold value_init, tuple_cons_init.
    f_equal; now apply get_zero.
  - intros [v1 v2] i [x1 x2] [Hv1 Hv2] Hi. cbn [thd ttl] in *.
    split; now apply put_wf.
  - intros [v1 v2] i [x1 x2] [Hv1 Hv2] Hi. cbn [thd ttl] in *.
    f_equal; now apply get_put_eq.
  - intros [v1 v2] i j [x1 x2] [Hv1 Hv2] Hi Hj Hne. cbn [thd ttl] in *.
    f_equal; now apply get_put_ne.
Qed.

(** The scalar constructors of the primary template, of the mask and of the
    pair vector fill every lane with their argument. *)
Lemma generic_broadcasts (A : arch) (T : Type) `{ValueInit T} :
  broadcasts A T (L := generic_lanes A T).
Proof. intros x i Hi. now apply (generic_get_scalar A). Qed.

Lemma mask_broadcasts (A : arch) :
  arch_ok A -> broadcasts A bool (L := mask_lanes A).
Proof.
  intros [Hw Hmask] b i Hi. cbn [get splat mask_lanes].
  rewrite mask_get_testbit by lia. unfold mask.ctor_bool.
  destruct b; [| apply Z.bits_0].
  rewrite Hmask, testbit_all_ones by lia.
  destruct (Z.ltb_spec i (width A)); [reflexivity | lia].
Qed.

Lemma pair_broadcasts (A : arch) (S T : Type)
    {LS : Lanes A S} {LT : Lanes A T} :
  broadcasts A S -> broadcasts A T -> broadcasts A (S * T).
Proof.
  intros HS HT [x y] i Hi. cbn [get splat pair_lanes fst snd].
  f_equal; [now apply HS | now apply HT].
Qed.

(** ** C7: [put] then [get] *)

(** C7.  For every lane vector, every lane [i] in [[0, width)] and every
    value [x]: after [put(i, x)], [get(i)] returns [x] and [get(j)] returns
    what it returned before for every other lane [j]; this holds for the
    primary template (an array of [width] elements) and for the bit-packed
    [vec<bool,A>] alike. *)
Theorem C7_put_then_get (A : arch) (T : Type) `{ValueInit T} :
  arch_ok A ->
  (forall (v : list T) (i : Z) (x : T),
      generic_vec.wf A v -> 0 <= i < width A ->
      generic_vec.get (generic_vec.put v i x) i = x
      /\ forall j, 0 <= j < width A -> j <> i ->
           generic_vec.get (generic_vec.put v i x) j = generic_vec.get v j)
  /\ (forall (m : mask.t) (i : Z) (b : bool),
      mask.wf m -> 0 <= i < width A ->
      mask.get (mask.put m i b) i = b
      /\ forall j, 0 <= j < width A -> j <> i ->
           mask.get (mask.put m i b) j = mask.get m j).
Proof.
  intros [Hw _]. split.
  - intros v i x Hv Hi. split.
    + now apply (generic_get_put_eq A).
    + intros j Hj Hne. apply generic_get_put_ne; lia.
  - intros m i b Hm Hi. split.
    + apply mask_get_put_eq; (assumption || lia).
    + intros j Hj Hne. apply mask_get_put_ne; (assumption || lia).
Qed.

Lemma C7_put_then_get_witness :
  (generic_vec.get (generic_vec.put [1; 2; 3; 4] 2 9) 2 = 9
   /\ generic_vec.get (generic_vec.put [1; 2; 3; 4] 2 9) 3
      = generic_vec.get [1; 2; 3; 4] 3)
  /\ (mask.get (mask.put 5 1 true) 1 = true
      /\ mask.get (mask.put 5 1 true) 2 = mask.get 5 2).
Proof.
  destruct (C7_put_then_get (generic 4) Z generic_4_ok) as [Hvec Hmask].
  split.
  - destruct (Hvec [1; 2; 3; 4] 2 9) as [Heq Hne].
    + reflexivity.
    + vm_compute. split; [intros Hc; discriminate Hc | reflexivity].
    + split; [exact Heq |]. apply Hne.
      * vm_compute. split; [intros Hc; discriminate Hc | reflexivity].
      * discriminate.
  - destruct (Hmask 5 1 true) as [Heq Hne].
    + vm_compute. split; [intros Hc; discriminate Hc | reflexivity].
    + vm_compute. split; [intros Hc; discriminate Hc | reflexivity].
    + split; [exact Heq |]. apply Hne.
      * vm_compute. split; [intros Hc; discriminate Hc | reflexivity].
      * discriminate.
Defined.

(** ** Sequences of [put] *)

Section FoldPut.
Context {A : arch} {T : Type} {VT : ValueInit T} {L : Lanes A T}.
Context {HL : LanesLaws A T}.
Variable g : Z -> T.

Lemma fold_put_wf (ls : list Z) :
  forall u : vec A T,
    wf u -> Forall (in_range A) ls ->
    wf (fold_left (fun u i => put u i (g i)) ls u).
Proof.
  induction ls as [| i ls IH]; intros u Hu Hls; [exact Hu |].
  rewrite fold_left_cons. inversion Hls as [| ? ? Hi Hrest]; subst.
  apply IH; [| assumption]. now apply put_wf.
Qed.

(** After a sequence of writes [put(i, g i)], a lane that was written holds
    [g] of its index, the others hold what they held. *)
Lemma fold_put_get (ls : list Z) :
  forall (u : vec A T) (j : Z),
    wf u -> Forall (in_range A) ls -> 0 <= j < width A ->
    get (fold_left (fun u i => put u i (g i)) ls u) j
      = if existsb (Z.eqb j) ls then g j else get u j.
Proof.
  induction ls as [| i ls IH]; intros u j Hu Hls Hj; [reflexivity |].
  rewrite fold_left_cons. inversion Hls as [| ? ? Hi Hrest]; subst.
  rewrite IH by (try assumption; now apply put_wf).
  cbn [existsb].
  destruct (existsb (Z.eqb j) ls).
  - now rewrite orb_true_r.
  - rewrite orb_false_r. destruct (Z.eqb_spec j i) as [-> | Hne].
    + now apply get_put_eq.
    + apply get_put_ne; (assumption || congruence).
Qed.

Lemma seqZ_in_range : Forall (in_range A) (seqZ 0 (width A)).
Proof. apply Forall_seqZ. unfold in_range. intros; lia. Qed.

Lemma existsb_seqZ (j : Z) :
  0 <= j < width A -> existsb (Z.eqb j) (seqZ 0 (width A)) = true.
Proof.
  intros Hj. apply existsb_exists. exists j. split.
  - apply list_elem_of_In, elem_of_seqZ. lia.
  - apply Z.eqb_refl.
Qed.

(** A loop over all lanes that writes [g i] to lane [i]. *)
Lemma for_lanes_put_get (u : vec A T) (j : Z) :
  wf u -> 0 <= j < width A ->
  get (for_lanes A (fun i u => put u i (g i)) u) j = g j.
Proof.
  intros Hu Hj. unfold for_lanes.
  rewrite fold_put_get by (assumption || apply seqZ_in_range).
  now rewrite existsb_seqZ.
Qed.

End FoldPut.

(** ** The member operators of the mask *)

Lemma mask_binary_lanes (m rhs : mask.t) (i : Z) :
  0 <= i < 64 ->
  mask.get (mask.and m rhs) i = mask.get m i && mask.get rhs i
  /\ mask.get (mask.or m rhs) i = mask.get m i || mask.get rhs i
  /\ mask.get (mask.xor m rhs) i = xorb (mask.get m i) (mask.get rhs i)
  /\ mask.get (mask.land m rhs) i = mask.get m i && mask.get rhs i
  /\ mask.get (mask.lor m rhs) i = mask.get m i || mask.get rhs i.
Proof.
  intros Hi. rewrite !mask_get_testbit by assumption.
  unfold mask.and, mask.or, mask.xor, mask.land, mask.lor.
  now rewrite Z.land_spec, Z.lor_spec, Z.lxor_spec.
Qed.

Lemma mask_not_lanes (A : arch) (m : mask.t) (i : Z) :
  arch_ok A -> 0 <= i < width A ->
  mask.get (mask.not A m) i = negb (mask.get m i)
  /\ mask.get (mask.lnot A m) i = negb (mask.get m i).
Proof.
  intros [Hw Hmask] Hi. rewrite !mask_get_testbit by lia.
  unfold mask.not, mask.lnot.
  rewrite Z.lxor_spec, Hmask, testbit_all_ones by lia.
  destruct (Z.ltb_spec i (width A)); [| lia].
  now rewrite xorb_true_r.
Qed.

(** ** The operator templates *)

Section Elementwise.
Context {A : arch} {T U R : Type} {VR : ValueInit R}.
Context {LT : Lanes A T} {LU : Lanes A U} {LR : Lanes A R}.
Context {HR : LanesLaws A R}.
Variable op : T -> U -> R.

Lemma binop_vv_get (l : vec A T) (r : vec A U) (i : Z) :
  0 <= i < width A -> get (binop_vv op l r) i = op (get l i) (get r i).
Proof.
  intros Hi. unfold binop_vv.
  apply (for_lanes_put_get (fun i => op (get l i) (get r i)));
    [apply zero_wf | assumption].
Qed.

Lemma binop_vs_get (l : vec A T) (r : U) (i : Z) :
  0 <= i < width A -> get (binop_vs op l r) i = op (get l i) r.
Proof.
  intros Hi. unfold binop_vs.
  apply (for_lanes_put_get (fun i => op (get l i) r));
    [apply zero_wf | assumption].
Qed.

Lemma binop_sv_get (l : T) (r : vec A U) (i : Z) :
  0 <= i < width A -> get (binop_sv op l r) i = op l (get r i).
Proof.
  intros Hi. unfold binop_sv.
  apply (for_lanes_put_get (fun i => op l (get r i)));
    [apply zero_wf | assumption].
Qed.

End Elementwise.

(** The unary template obeys the same law. *)
Lemma unop_get {A : arch} {T R : Type} {VR : ValueInit R} {LT : Lanes A T}
    {LR : Lanes A R} {HR : LanesLaws A R} (op : T -> R) (l : vec A T)
    (i : Z) :
  0 <= i < width A -> get (unop op l) i = op (get l i).
Proof.
  intros Hi. unfold unop.
  apply (for_lanes_put_get (fun i => op (get l i)));
    [apply zero_wf | assumption].
Qed.

(** ** The specialisations of [vec<std::int32_t>] *)

(** The lane contract of the specialisations. *)
Lemma avx_4_int32_laws : LanesLaws avx_4 int32.
Proof.
  split.
  - reflexivity.
  - intros i _. exact (generic_get_default avx_4 (T := Z) i).
  - intros v i x Hv _. exact (generic_put_wf avx_4 (T := Z) v i x Hv).
  - intros v i x Hv Hi.
    exact (generic_get_put_eq avx_4 (T := Z) v i x Hv Hi).
  - intros v i j x _ Hi Hj Hne.
    exact (generic_get_put_ne (T := Z) v i j x (proj1 Hi) (proj1 Hj) Hne).
Qed.

Lemma avx2_8_int32_laws : LanesLaws avx2_8 int32.
Proof.
  split.
  - reflexivity.
  - intros i _. exact (generic_get_default avx2_8 (T := Z) i).
  - intros v i x Hv _. exact (generic_put_wf avx2_8 (T := Z) v i x Hv).
  - intros v i x Hv Hi.
    exact (generic_get_put_eq avx2_8 (T := Z) v i x Hv Hi).
  - intros v i j x _ Hi Hj Hne.
    exact (generic_get_put_ne (T := Z) v i j x (proj1 Hi) (proj1 Hj) Hne).
Qed.

(** ** C8: elementwise operators *)

(** C8.  The specification asks that every binary operator act lane by
    lane on all lane vectors, [(lhs op s)[i] == lhs[i] op s] in the mixed
    form.  The code departs from it on [vec<std::int32_t, target::avx_4>]:
    for [v = {-8, 8, -1, 5}] the expression [v >> 1] calls the member
    operator of the specialisation, which shifts zeros in and yields
    [{2147483644, 4, 2147483647, 2}], where the scalar operator gives
    [{-4, 4, -1, 2}] lane by lane, as the operator template does on the
    same vector.  The scenario of the specification,
    [{1,2,3,4} + {10,20,30,40} == {11,22,33,44}], holds for the operator
    template on width 4 and for the member [operator +] of the
    specialisation. *)
Theorem C8_avx_shift_right_not_elementwise :
  avx_int32.shr (avx_int32.ctor_lanes_4 (-8) 8 (-1) 5) 1
    = [2147483644; 4; 2147483647; 2]
  /\ (fun x => int32_shr x 1) <$> avx_int32.ctor_lanes_4 (-8) 8 (-1) 5
     = [-4; 4; -1; 2]
  /\ get (A := avx_4) (T := int32)
       (avx_int32.shr (avx_int32.ctor_lanes_4 (-8) 8 (-1) 5) 1) 0
     <> int32_shr
          (get (A := avx_4) (T := int32)
             (avx_int32.ctor_lanes_4 (-8) 8 (-1) 5) 0) 1
  /\ binop_vs (A := avx_4) (T := int32) (R := int32) int32_shr
       (avx_int32.ctor_lanes_4 (-8) 8 (-1) 5) 1
     = [-4; 4; -1; 2]
  /\ avx_int32.add (avx_int32.ctor_lanes_4 1 2 3 4)
       (avx_int32.ctor_lanes_4 10 20 30 40)
     = avx_int32.ctor_lanes_4 11 22 33 44
  /\ binop_vv (A := generic 4) (R := int32) int32_add a1234 b1234 = c1234.
Proof.
  split; [vm_compute; reflexivity |].
  split; [vm_compute; reflexivity |].
  split; [vm_compute; intros Hc; discriminate Hc |].
  split; [vm_compute; reflexivity |].
  split; vm_compute; reflexivity.
Qed.

(** ** The default loader *)

Lemma existsb_active_lanes (m j : Z) :
  0 <= j < 32 -> existsb (Z.eqb j) (active_lanes m) = Z.testbit m j.
Proof.
  intros Hj. destruct (Z.testbit m j) eqn:Hbit.
  - apply existsb_exists. exists j. split; [| apply Z.eqb_refl].
    apply active_lanes_In. split; assumption.
  - destruct (existsb (Z.eqb j) (active_lanes m)) eqn:Hex; [| reflexivity].
    apply existsb_exists in Hex as (x & Hin & Heq).
    apply Z.eqb_eq in Heq. subst x.
    apply active_lanes_In in Hin as [_ Hset]. congruence.
Qed.

Lemma active_lanes_in_range (A : arch) (m : mask.t) :
  arch_ok A -> bounded A m -> Forall (in_range A) (active_lanes m).
Proof.
  intros A_ok Hm.
  apply (bounded_testbit A A_ok) in Hm as [_ Hhigh].
  apply List.Forall_forall. intros i Hin.
  apply active_lanes_In in Hin as [Hi Hset]. unfold in_range.
  destruct (Z_lt_ge_dec i (width A)) as [Hlt | Hge]; [lia |].
  rewrite Hhigh in Hset by lia. discriminate.
Qed.

Section LoadMasked.
Context {A : arch} {T : Type} {VT : ValueInit T}.
Context {LT : Lanes A T} {LP : Lanes A ptr} {HL : LanesLaws A T}.
Variable mem : ptr -> T.
Hypothesis A_ok : arch_ok A.

(** [base_loader::load_masked] returns, fills the lanes whose mask bit is
    set from memory and leaves the other lanes of [dst] as they were. *)
Lemma load_masked_lanes (dst : vec A T) (src : vec A ptr) (m : mask.t) :
  wf dst -> bounded A m ->
  exists u : vec A T,
    base_loader.load_masked mem dst src m = Ret u
    /\ wf u
    /\ forall i, 0 <= i < width A ->
         get u i = spec_masked_lane mem dst src m i.
Proof.
  intros Hdst Hm.
  pose proof (bounded_wf A A_ok m Hm) as Hwf.
  pose proof (active_lanes_in_range A m A_ok Hm) as Hlanes.
  destruct A_ok as [Hw _].
  unfold base_loader.load_masked.
  rewrite foreach_active_run by assumption.
  unfold movemask, mask.movemask.
  eexists. split; [reflexivity |]. split.
  - exact (fold_put_wf (fun i => mem (get src i)) (active_lanes m) dst
             Hdst Hlanes).
  - intros i Hi.
    pose proof (fold_put_get (fun i => mem (get src i)) (active_lanes m)
                  dst i Hdst Hlanes Hi) as Hget.
    rewrite existsb_active_lanes in Hget by lia.
    unfold spec_masked_lane. rewrite mask_get_testbit by lia.
    exact Hget.
Qed.

(** [base_loader::load] fills every lane from memory. *)
Lemma load_lanes (dst : vec A T) (src : vec A ptr) (i : Z) :
  wf dst -> 0 <= i < width A ->
  get (base_loader.load mem dst src) i = mem (get src i).
Proof.
  intros Hdst Hi. unfold base_loader.load.
  now apply (for_lanes_put_get (fun i => mem (get src i))).
Qed.

(** A three-argument call to [load] on the default loader has no callee,
    whatever the operands are. *)
Lemma load_pointers_mask_unresolved (src : vec A ptr) (m : mask.t) :
  load_pointers_mask mem src m = NoMatchingFunction.
Proof. reflexivity. Qed.

End LoadMasked.

(** ** C6: masked load *)

(** C6.  The specification asks that the free function
    [load(pointers, mask)] dispatch to the loader's [load_masked] and so
    fill exactly the lanes whose mask bit is set.  The code departs from
    it: the free function
    calls [detail::loader<T,A>::load(result, pointers, mask)], and the
    default loader has no [load] that takes a mask, so the call has no
    callee; [load_masked] itself, called on the operands of the scenario
    ([[100,200,300,400]], mask [{true,true,false,false}], zero-initialised
    destination), yields [{100, 200, 0, 0}]. *)
Theorem C6_masked_load_free_function :
  mask.ctor_init_list [true; true; false; false] = 3
  /\ load_pointers_mask (A := generic 4) (T := int32) mem1234 ptrs0123
       (mask.ctor_init_list [true; true; false; false])
     = NoMatchingFunction
  /\ base_loader.load_masked (A := generic 4) (T := int32) mem1234 zero
       ptrs0123 (mask.ctor_init_list [true; true; false; false])
     = Ret [100; 200; 0; 0].
Proof. repeat split. Qed.

(** ** C10: the scalar constructor of the tuple vector *)

(** C10.  Constructing a tuple vector from a scalar [std::tuple] value
    yields exactly the default-constructed vector: every component vector
    is default-constructed, every lane reads as the value-initialised tuple,
    and two different arguments give the same vector. *)
Theorem C10_tuple_scalar_ctor_ignores_argument (A : arch) (T Ts : Type)
    {VT : ValueInit T} {VTs : ValueInit Ts}
    {LT : Lanes A T} {LTs : Lanes A Ts} (b b' : tuple_cons T Ts) :
  LanesLaws A T -> LanesLaws A Ts ->
  (splat b : vec A (tuple_cons T Ts)) = zero
  /\ thd (splat b : vec A (tuple_cons T Ts)) = zero
  /\ ttl (splat b : vec A (tuple_cons T Ts)) = zero
  /\ (forall i, 0 <= i < width A ->
        get (splat b : vec A (tuple_cons T Ts)) i = value_init)
  /\ (splat b : vec A (tuple_cons T Ts)) = splat b'.
Proof.
  intros HT HTs. repeat split.
  intros i Hi. cbn [splat get tuple_cons_lanes thd ttl].
  unfold value_init, tuple_cons_init.
  f_equal; now apply get_zero.
Qed.

Lemma C10_tuple_scalar_ctor_ignores_argument_witness :
  get (A := generic 4) (T := tuple_cons int32 (tuple_cons bool tuple_nil))
    (splat (tcons 7 (tcons true tnil))) 2
  = tcons 0 (tcons false tnil).
Proof.
  refine (proj1 (proj2 (proj2 (proj2
    (C10_tuple_scalar_ctor_ignores_argument (generic 4) int32
       (tuple_cons bool tuple_nil)
       (tcons 7 (tcons true tnil)) (tcons 7 (tcons true tnil))
       (generic_laws (generic 4) int32)
       (tuple_cons_laws (generic 4) bool tuple_nil
          (mask_laws (generic 4) generic_4_ok)
          (tuple_nil_laws (generic 4))))))) 2 _).
  vm_compute. split; [intros Hc; discriminate Hc | reflexivity].
Defined.

(** The other scalar constructors broadcast; the tuple one does not. *)
Lemma tuple_ctor_not_broadcast :
  ~ broadcasts (generic 4) (tuple_cons int32 tuple_nil).
Proof.
  intros Hb.
  assert (Hlane : 0 <= 0 < width (generic 4))
    by (vm_compute; split; [intros Hc; discriminate Hc | reflexivity]).
  specialize (Hb (tcons 7 tnil) 0 Hlane).
  vm_compute in Hb. discriminate Hb.
Qed.

Lemma pair_ctor_broadcast (i : Z) :
  0 <= i < 4 ->
  get (A := generic 4) (T := int32 * bool) (splat (7, true)) i = (7, true).
Proof.
  intros Hi.
  apply (pair_broadcasts (generic 4) int32 bool
           (generic_broadcasts (generic 4) int32)
           (mask_broadcasts (generic 4) generic_4_ok)).
  exact Hi.
Qed.

(** * Further properties *)

(** ** The descriptors *)

Lemma ilog2_loop_log2 (fuel : nat) :
  forall v r : Z,
    0 < v < 2 ^ Z.of_nat fuel -> ilog2_loop fuel v r = r + Z.log2 v.
Proof.
  induction fuel as [| fuel IH]; intros v r Hv.
  - change (2 ^ Z.of_nat 0) with 1 in Hv. lia.
  - cbn [ilog2_loop]. rewrite Z.shiftr_div_pow2 by lia.
    change (2 ^ 1) with 2.
    assert (Hpow : 2 ^ Z.of_nat (S fuel) = 2 * 2 ^ Z.of_nat fuel).
    { rewrite Nat2Z.inj_succ, Z.pow_succ_r by lia. reflexivity. }
    destruct (Z.eqb_spec (v / 2) 0) as [Hz | Hnz].
    + assert (v = 1) by (Z.div_mod_to_equations; lia). subst v.
      change (Z.log2 1) with 0. lia.
    + assert (Hhalf : 0 < v / 2 < 2 ^ Z.of_nat fuel)
        by (Z.div_mod_to_equations; lia).
      rewrite IH by assumption.
      pose proof (Z.log2_shiftr v 1 ltac:(lia)) as Hsh.
      rewrite Z.shiftr_div_pow2 in Hsh by lia.
      change (2 ^ 1) with 2 in Hsh.
      assert (0 < Z.log2 v) by (apply Z.log2_pos; Z.div_mod_to_equations; lia).
      lia.
Qed.

(** X1.  On every positive [int], [detail::ilog2] is the floor of the
    binary logarithm: [2^ilog2(v) <= v < 2^(ilog2(v)+1)]. *)
Theorem X1_ilog2_floor_log2 (v : Z) :
  0 < v < 2 ^ 31 ->
  ilog2 v = Z.log2 v /\ 2 ^ ilog2 v <= v < 2 ^ (ilog2 v + 1).
Proof.
  intros Hv.
  assert (Heq : ilog2 v = Z.log2 v).
  { unfold ilog2. rewrite ilog2_loop_log2; [lia |].
    change (2 ^ Z.of_nat 32) with (2 ^ 32). lia. }
  rewrite Heq. split; [reflexivity |].
  pose proof (Z.log2_spec v ltac:(lia)) as Hspec.
  rewrite <- Z.add_1_r in Hspec. exact Hspec.
Qed.

Lemma X1_ilog2_floor_log2_witness :
  ilog2 12 = Z.log2 12 /\ 2 ^ ilog2 12 <= 12 < 2 ^ (ilog2 12 + 1).
Proof.
  apply (X1_ilog2_floor_log2 12).
  vm_compute. split; reflexivity.
Defined.

(** X2.  [generic<N>] builds for the power-of-two widths 1 to 16 (the
    [static_assert]s admit the powers of two up to 32, and [1 << 32] is no
    constant).  For each of them, [N = 2^s], the derived constants are
    [shift = s], [shift_mask = width - 1] and [width_mask] the word with
    exactly the [width] low bits set, so that the descriptor is one the
    mask operations are defined on. *)
Theorem X2_generic_constants (s : Z) :
  0 <= s <= 4 ->
  width (generic (2 ^ s)) = 2 ^ s
  /\ shift (generic (2 ^ s)) = s
  /\ shift_mask (generic (2 ^ s)) = width (generic (2 ^ s)) - 1
  /\ width_mask (generic (2 ^ s)) = 2 ^ width (generic (2 ^ s)) - 1
  /\ arch_ok (generic (2 ^ s)).
Proof.
  intros Hs.
  assert (Hpos : 0 < 2 ^ s) by (apply Z.pow_pos_nonneg; lia).
  assert (Hle : 2 ^ s <= 2 ^ 4) by (apply Z.pow_le_mono_r; lia).
  change (2 ^ 4) with 16 in Hle.
  assert (Hlog : ilog2 (2 ^ s) = s).
  { unfold ilog2. rewrite ilog2_loop_log2.
    - rewrite Z.log2_pow2 by lia. lia.
    - change (2 ^ Z.of_nat 32) with (2 ^ 32). lia. }
  assert (Hmask : width_mask (generic (2 ^ s)) = 2 ^ (2 ^ s) - 1).
  { cbn [width_mask generic]. rewrite Z.shiftl_1_l.
    assert (0 < 2 ^ (2 ^ s)) by (apply Z.pow_pos_nonneg; lia).
    assert (2 ^ (2 ^ s) <= 2 ^ 32) by (apply Z.pow_le_mono_r; lia).
    apply u32_small. lia. }
  cbn [width shift shift_mask generic].
  rewrite Hlog, Z.shiftl_1_l.
  split; [reflexivity |]. split; [reflexivity |].
  split; [apply u32_small; lia |].
  split; [exact Hmask |].
  split; [cbn [width generic]; lia | exact Hmask].
Qed.

Lemma X2_generic_constants_witness :
  width (generic (2 ^ 3)) = 2 ^ 3
  /\ shift (generic (2 ^ 3)) = 3
  /\ shift_mask (generic (2 ^ 3)) = width (generic (2 ^ 3)) - 1
  /\ width_mask (generic (2 ^ 3)) = 2 ^ width (generic (2 ^ 3)) - 1
  /\ arch_ok (generic (2 ^ 3)).
Proof.
  apply (X2_generic_constants 3).
  vm_compute. split; intros Hc; discriminate Hc.
Defined.

(** ** Comparisons of element pointers *)

Ltac z_compare :=
  rewrite ?Z.gtb_ltb, ?Z.geb_leb;
  repeat match goal with
  | |- context [?a <? ?b] => destruct (Z.ltb_spec a b)
  | |- context [?a <=? ?b] => destruct (Z.leb_spec a b)
  | |- context [?a =? ?b] => destruct (Z.eqb_spec a b)
  end;
  cbn [andb orb negb]; try reflexivity; try lia.

(** X3.  The six comparison operators of element pointers are consistent
    with one another on all pointers: [!=] negates [==], [>] and [>=] are
    [<] and [<=] with the operands exchanged, [<=] negates [>], [>=]
    negates [<], and [<=] is [<] or [==]. *)
Theorem X3_comparisons_consistent (p q : vptr.t) :
  vptr.neqb p q = negb (vptr.eqb p q)
  /\ vptr_order.gtb p q = vptr.ltb q p
  /\ vptr_order.geb p q = vptr.leb q p
  /\ vptr.leb p q = negb (vptr_order.gtb p q)
  /\ vptr_order.geb p q = negb (vptr.ltb p q)
  /\ vptr.leb p q = vptr.ltb p q || vptr.eqb p q.
Proof.
  unfold vptr.neqb, vptr.eqb, vptr.ltb, vptr.leb, vptr_order.gtb,
    vptr_order.geb.
  repeat split; z_compare.
Qed.

(** X4.  On pointers whose lanes are in [[0, width)], the comparisons order
    the flattened coordinate [width * V + i], and the difference of two
    pointers is the difference of their flattened coordinates. *)
Theorem X4_order_is_flattened_order (A : arch) (p q : vptr.t) :
  vptr.invariant A p = true -> vptr.invariant A q = true ->
  vptr.ltb p q = (vptr_order.flat A p <? vptr_order.flat A q)
  /\ vptr.leb p q = (vptr_order.flat A p <=? vptr_order.flat A q)
  /\ vptr.eqb p q = (vptr_order.flat A p =? vptr_order.flat A q)
  /\ vptr.diff A q p = vptr_order.flat A q - vptr_order.flat A p.
Proof.
  unfold vptr.invariant, vptr.ltb, vptr.leb, vptr.eqb, vptr.diff,
    vptr_order.flat.
  intros Hp Hq.
  apply andb_prop in Hp as [Hp0 Hpw]. apply andb_prop in Hq as [Hq0 Hqw].
  apply Z.leb_le in Hp0, Hq0. apply Z.ltb_lt in Hpw, Hqw.
  destruct p as [vp ip], q as [vq iq]. cbn [vptr.v vptr.i] in *.
  repeat split; try lia; z_compare; nia.
Qed.

Lemma X4_order_is_flattened_order_witness :
  vptr.ltb (vptr.Vptr 2 3) (vptr.Vptr 3 0)
    = (vptr_order.flat (generic 4) (vptr.Vptr 2 3)
         <? vptr_order.flat (generic 4) (vptr.Vptr 3 0)).
Proof.
  apply (X4_order_is_flattened_order (generic 4) (vptr.Vptr 2 3)
           (vptr.Vptr 3 0)); reflexivity.
Defined.

(** ** Pointer arithmetic where it is exact *)

(** X5.  When the flattened lane [i + k] is not negative (every forward
    step from an in-range pointer, and backward steps within the vector),
    [p + k] has its lane in [[0, width)], lies [k] lanes after [p] in the
    flattened coordinate, and [(p + k) - p] is [k]. *)
Theorem X5_plus_forward_exact (A : arch) (p : vptr.t) (k : Z) :
  0 < width A < 2 ^ 31 -> 0 <= vptr.i p + k ->
  vptr.invariant A (vptr.plus A p k) = true
  /\ vptr_order.flat A (vptr.plus A p k) = vptr_order.flat A p + k
  /\ vptr.diff A (vptr.plus A p k) p = k.
Proof.
  intros Hw Hk.
  rewrite (vptr_plus_nonneg A Hw p k Hk).
  pose proof (spec_plus_lane_range A Hw p k) as Hr.
  split; [| split].
  - unfold vptr.invariant.
    apply andb_true_intro. split; [apply Z.leb_le | apply Z.ltb_lt]; lia.
  - unfold vptr_order.flat, vptr.spec_plus. cbn [vptr.v vptr.i]. lia.
  - apply spec_plus_diff.
Qed.

Lemma X5_plus_forward_exact_witness :
  vptr.invariant (generic 4) (vptr.plus (generic 4) (vptr.Vptr 7 3) 6) = true
  /\ vptr_order.flat (generic 4) (vptr.plus (generic 4) (vptr.Vptr 7 3) 6)
     = vptr_order.flat (generic 4) (vptr.Vptr 7 3) + 6
  /\ vptr.diff (generic 4) (vptr.plus (generic 4) (vptr.Vptr 7 3) 6)
       (vptr.Vptr 7 3) = 6.
Proof.
  apply (X5_plus_forward_exact (generic 4) (vptr.Vptr 7 3) 6).
  - vm_compute. split; reflexivity.
  - vm_compute. intros Hc. discriminate Hc.
Defined.

(** X6.  On a pointer whose lane is in [[0, width)], the prefix
    [operator--] of [const_vptr] yields a pointer with its lane in range,
    exactly one lane before; it undoes the prefix [operator++]; and the
    prefix [operator++] undoes it unless the pointer is at lane 0. *)
Theorem X6_decrement_exact (A : arch) (p : vptr.t) :
  vptr.invariant A p = true ->
  vptr.invariant A (vptr.decr A p) = true
  /\ vptr.diff A p (vptr.decr A p) = 1
  /\ vptr.decr A (vptr.incr A p) = p
  /\ (1 <= vptr.i p -> vptr.incr A (vptr.decr A p) = p).
Proof.
  unfold vptr.invariant. intros Hp.
  apply andb_prop in Hp as [Hp0 Hpw].
  apply Z.leb_le in Hp0. apply Z.ltb_lt in Hpw.
  destruct p as [vp ip]. cbn [vptr.v vptr.i] in *.
  unfold vptr.decr, vptr.incr, vptr.diff. cbn [vptr.v vptr.i].
  split; [| split; [| split]].
  - destruct (Z.ltb_spec (ip - 1) 0); cbn [vptr.v vptr.i];
      apply andb_true_intro; split; (apply Z.leb_le || apply Z.ltb_lt); lia.
  - destruct (Z.ltb_spec (ip - 1) 0); cbn [vptr.v vptr.i]; lia.
  - destruct (Z.ltb_spec (width A) (ip + 1)); [lia |].
    cbn [vptr.v vptr.i].
    destruct (Z.ltb_spec (ip + 1 - 1) 0); [lia |]. f_equal; lia.
  - intros Hi. destruct (Z.ltb_spec (ip - 1) 0); [lia |].
    cbn [vptr.v vptr.i].
    destruct (Z.ltb_spec (width A) (ip - 1 + 1)); [lia |]. f_equal; lia.
Qed.

Lemma X6_decrement_exact_witness :
  vptr.invariant (generic 4) (vptr.decr (generic 4) (vptr.Vptr 5 0)) = true
  /\ vptr.diff (generic 4) (vptr.Vptr 5 0)
       (vptr.decr (generic 4) (vptr.Vptr 5 0)) = 1.
Proof.
  destruct (X6_decrement_exact (generic 4) (vptr.Vptr 5 0)) as (H1 & H2 & _).
  - reflexivity.
  - split; [exact H1 | exact H2].
Defined.

(** ** Construction of masks *)

Lemma init_list_loop_testbit (bs : list bool) :
  forall (k i data j : Z),
    0 <= k -> k + Z.of_nat (length bs) <= 31 ->
    (bs <> [] -> i = 2 ^ k) ->
    0 <= data < 2 ^ k -> 0 <= j ->
    Z.testbit (mask.init_list_loop bs i data) j
      = if j <? k then Z.testbit data j
        else nth (Z.to_nat (j - k)) bs false.
Proof.
  induction bs as [| b bs IH]; intros k i data j Hk Hlen Hi Hdata Hj.
  - cbn [mask.init_list_loop].
    destruct (Z.ltb_spec j k) as [Hlt | Hge]; [reflexivity |].
    rewrite (testbit_below_pow2 data k) by lia.
    now destruct (Z.to_nat (j - k)).
  - specialize (Hi ltac:(discriminate)). subst i.
    cbn [mask.init_list_loop length] in *.
    rewrite Nat2Z.inj_succ in Hlen.
    assert (Hpow : 0 < 2 ^ k) by (apply Z.pow_pos_nonneg; lia).
    assert (Hpow31 : 2 ^ k < 2 ^ 31) by (apply Z.pow_lt_mono_r; lia).
    assert (Hsucc : 2 ^ (k + 1) = 2 * 2 ^ k)
      by (rewrite Z.pow_add_r by lia; lia).
    assert (H32 : 2 ^ (k + 1) <= 2 ^ 32) by (apply Z.pow_le_mono_r; lia).
    set (data' := if b then u32 (Z.lor data (u32 (2 ^ k))) else data).
    assert (Hbits : forall n, 0 <= n ->
              Z.testbit data' n
                = if n =? k then b else Z.testbit data n).
    { intros n Hn. unfold data'. destruct b.
      - rewrite (u32_small (2 ^ k)) by lia.
        rewrite testbit_u32, Z.lor_spec, Z.pow2_bits_eqb by lia.
        rewrite (Z.eqb_sym k n).
        destruct (Z.eqb_spec n k) as [-> | Hne].
        + rewrite orb_true_r.
          destruct (Z.ltb_spec k 32); [reflexivity | lia].
        + rewrite orb_false_r.
          destruct (Z.ltb_spec n 32); [reflexivity |].
          cbn [andb]. symmetry. apply (testbit_below_pow2 data k); lia.
      - destruct (Z.eqb_spec n k) as [-> | Hne]; [| reflexivity].
        apply (testbit_below_pow2 data k); lia. }
    assert (Hdata' : 0 <= data' < 2 ^ (k + 1)).
    { assert (Hnn : 0 <= data').
      { unfold data'. destruct b; [apply u32_range | lia]. }
      split; [exact Hnn |].
      apply below_pow2_testbit; [lia | exact Hnn |].
      intros n Hn. rewrite Hbits by lia.
      destruct (Z.eqb_spec n k); [lia |].
      apply (testbit_below_pow2 data k); lia. }
    rewrite (IH (k + 1) _ data' j); try lia; try assumption.
    + destruct (Z.ltb_spec j (k + 1)) as [Hlt | Hge].
      * rewrite Hbits by lia.
        destruct (Z.eqb_spec j k) as [-> | Hne].
        -- destruct (Z.ltb_spec k k); [lia |].
           now rewrite Z.sub_diag.
        -- destruct (Z.ltb_spec j k); [reflexivity | lia].
      * destruct (Z.ltb_spec j k); [lia |].
        replace (Z.to_nat (j - k)) with (S (Z.to_nat (j - (k + 1))))
          by lia.
        reflexivity.
    + intros Hne. rewrite Z.shiftl_mul_pow2 by lia.
      assert (0 < Z.of_nat (length bs))
        by (destruct bs; [congruence | simpl; lia]).
      assert (2 ^ (k + 1) < 2 ^ 31) by (apply Z.pow_lt_mono_r; lia).
      rewrite s32_small by lia. lia.
Qed.

(** X7.  A mask constructed from an initializer list of at most 31
    elements reads back the list: lane [i] is the [i]-th element, and the
    lanes past the end of the list are clear. *)
Theorem X7_init_list_lanes (bs : list bool) (i : Z) :
  Z.of_nat (length bs) <= 31 -> 0 <= i < 32 ->
  mask.get (mask.ctor_init_list bs) i = nth (Z.to_nat i) bs false.
Proof.
  intros Hlen Hi. rewrite mask_get_testbit by lia.
  unfold mask.ctor_init_list.
  rewrite (init_list_loop_testbit bs 0 1 0 i)
    by (lia || reflexivity || (change (2 ^ 0) with 1; lia)).
  destruct (Z.ltb_spec i 0); [lia |]. now rewrite Z.sub_0_r.
Qed.

Lemma X7_init_list_lanes_witness :
  mask.get (mask.ctor_init_list [true; false; true]) 2
    = nth (Z.to_nat 2) [true; false; true] false.
Proof.
  apply (X7_init_list_lanes [true; false; true] 2).
  - vm_compute. intros Hc. discriminate Hc.
  - vm_compute. split; [intros Hc; discriminate Hc | reflexivity].
Defined.

Lemma set_bits_testbit (g : Z -> bool) (ls : list Z) :
  forall (d0 j : Z),
    Forall (fun i => 0 <= i < 32) ls -> mask.wf d0 -> 0 <= j ->
    Z.testbit
      (fold_left
         (fun data i => if g i then u32 (Z.lor data (bit_ul i)) else data)
         ls d0) j
      = Z.testbit d0 j || (existsb (Z.eqb j) ls && g j).
Proof.
  induction ls as [| i ls IH]; intros d0 j Hls Hd Hj.
  - cbn [fold_left existsb]. now rewrite andb_false_l, orb_false_r.
  - rewrite fold_left_cons. inversion Hls as [| ? ? Hi Hrest]; subst.
    cbn [existsb].
    destruct (g i) eqn:Hgi.
    + change (u32 (Z.lor d0 (bit_ul i))) with (mask.put d0 i true).
      rewrite IH by (try assumption; apply mask_put_wf).
      rewrite mask_put_testbit by assumption.
      destruct (Z.eqb_spec j i) as [-> | Hne].
      * rewrite Hgi. cbn [orb andb]. now rewrite orb_true_r.
      * cbn [orb]. reflexivity.
    + rewrite IH by assumption.
      destruct (Z.eqb_spec j i) as [-> | Hne]; [| reflexivity].
      rewrite Hgi. cbn [orb]. now rewrite !andb_false_r.
Qed.

(** X8.  The mask constructed from another vector has lane [i] set exactly
    when that vector's lane [i] is true, for every lane in [[0, width)],
    and has no bit set elsewhere; building it from the lanes of a mask that
    keeps within the width gives that mask back. *)
Theorem X8_ctor_vec_lanes (A : arch) (that_get : Z -> bool) (m : mask.t) :
  arch_ok A -> bounded A m ->
  (forall i, 0 <= i < width A ->
     mask.get (mask.ctor_vec A that_get) i = that_get i)
  /\ bounded A (mask.ctor_vec A that_get)
  /\ mask.ctor_vec A (mask.get m) = m.
Proof.
  intros A_ok Hm. pose proof A_ok as [Hw _].
  assert (Hrange : Forall (fun i => 0 <= i < 32) (seqZ 0 (width A)))
    by (apply Forall_seqZ; intros; lia).
  assert (Hzero : mask.wf 0) by (unfold mask.wf; lia).
  assert (Hbit : forall g j, 0 <= j ->
            Z.testbit (mask.ctor_vec A g) j
              = (j <? width A) && g j).
  { intros g j Hj. unfold mask.ctor_vec.
    rewrite set_bits_testbit by assumption.
    rewrite Z.bits_0. cbn [orb].
    destruct (Z.ltb_spec j (width A)) as [Hlt | Hge].
    - now rewrite (existsb_seqZ (A := A)) by lia.
    - destruct (existsb (Z.eqb j) (seqZ 0 (width A))) eqn:Hex;
        [| reflexivity].
      apply existsb_exists in Hex as (x & Hin & Heq).
      apply Z.eqb_eq in Heq. subst x.
      apply list_elem_of_In, elem_of_seqZ in Hin. lia. }
  split; [| split].
  - intros i Hi. rewrite mask_get_testbit, Hbit by lia.
    destruct (Z.ltb_spec i (width A)); [reflexivity | lia].
  - apply ctor_vec_bounded. exact A_ok.
  - apply (bounded_testbit A A_ok) in Hm as [Hnn Hhigh].
    apply Z.bits_inj'. intros j Hj. rewrite Hbit by assumption.
    destruct (Z.ltb_spec j (width A)) as [Hlt | Hge].
    + cbn [andb]. apply mask_get_testbit. lia.
    + cbn [andb]. symmetry. now apply Hhigh.
Qed.

Lemma X8_ctor_vec_lanes_witness :
  mask.ctor_vec (generic 4) (mask.get 5) = 5.
Proof.
  apply (X8_ctor_vec_lanes (generic 4) (mask.get 5) 5).
  - exact generic_4_ok.
  - vm_compute. split; [intros Hc; discriminate Hc | reflexivity].
Defined.

(** ** The boolean algebra of masks *)

Lemma mask_not_bounded (A : arch) (m : mask.t) :
  arch_ok A -> bounded A m -> bounded A (mask.not A m).
Proof.
  intros A_ok Hm. unfold mask.not.
  apply xor_bounded; [exact A_ok | exact Hm |].
  now apply width_mask_bounded.
Qed.

(** X9.  [operator ~] (and [operator !], which has the same body) negates
    every lane in [[0, width)], keeps a mask within the width, and applied
    twice gives the operand back. *)
Theorem X9_not_lanes_involution (A : arch) (m : mask.t) :
  arch_ok A -> bounded A m ->
  (forall i, 0 <= i < width A ->
     mask.get (mask.not A m) i = negb (mask.get m i))
  /\ bounded A (mask.not A m)
  /\ mask.not A (mask.not A m) = m
  /\ mask.lnot A m = mask.not A m.
Proof.
  intros A_ok Hm. split; [| split; [| split]].
  - intros i Hi. now apply mask_not_lanes.
  - now apply mask_not_bounded.
  - unfold mask.not.
    now rewrite Z.lxor_assoc, Z.lxor_nilpotent, Z.lxor_0_r.
  - reflexivity.
Qed.

Lemma X9_not_lanes_involution_witness :
  mask.not (generic 4) (mask.not (generic 4) 5) = 5.
Proof.
  apply (X9_not_lanes_involution (generic 4) 5).
  - exact generic_4_ok.
  - vm_compute. split; [intros Hc; discriminate Hc | reflexivity].
Defined.

(** X10.  On masks that keep within the width, the operators obey De
    Morgan's laws: [~(a & b) == ~a | ~b] and [~(a | b) == ~a & ~b], as
    equalities of the packed words. *)
Theorem X10_de_morgan (A : arch) (a b : mask.t) :
  arch_ok A -> bounded A a -> bounded A b ->
  mask.not A (mask.and a b) = mask.or (mask.not A a) (mask.not A b)
  /\ mask.not A (mask.or a b) = mask.and (mask.not A a) (mask.not A b).
Proof.
  intros A_ok Ha Hb. pose proof A_ok as [Hw Hmask].
  apply (bounded_testbit A A_ok) in Ha as [_ Hah].
  apply (bounded_testbit A A_ok) in Hb as [_ Hbh].
  unfold mask.not, mask.and, mask.or.
  split; apply Z.bits_inj'; intros j Hj;
    rewrite ?Z.lxor_spec, ?Z.land_spec, ?Z.lor_spec, ?Z.lxor_spec, Hmask,
      testbit_all_ones by lia;
    destruct (Z.ltb_spec j (width A)) as [Hlt | Hge].
  - now destruct (Z.testbit a j), (Z.testbit b j).
  - now rewrite Hah, Hbh by lia.
  - now destruct (Z.testbit a j), (Z.testbit b j).
  - now rewrite Hah, Hbh by lia.
Qed.

Lemma X10_de_morgan_witness :
  mask.not (generic 4) (mask.and 5 3)
    = mask.or (mask.not (generic 4) 5) (mask.not (generic 4) 3).
Proof.
  apply (X10_de_morgan (generic 4) 5 3).
  - exact generic_4_ok.
  - vm_compute. split; [intros Hc; discriminate Hc | reflexivity].
  - vm_compute. split; [intros Hc; discriminate Hc | reflexivity].
Defined.

(** X11.  On a mask that keeps within the width, [any] is true exactly
    when some lane in [[0, width)] reads true, and [all] exactly when every
    such lane reads true. *)
Theorem X11_any_all_lanes (A : arch) (m : mask.t) :
  arch_ok A -> bounded A m ->
  (any m <> 0 <-> exists i, 0 <= i < width A /\ mask.get m i = true)
  /\ (all A m <> 0 <-> forall i, 0 <= i < width A -> mask.get m i = true).
Proof.
  intros A_ok Hm. split.
  - now apply any_some_lane.
  - now apply all_every_lane.
Qed.

Lemma X11_any_all_lanes_witness :
  (any 5 <> 0 <-> exists i, 0 <= i < width (generic 4) /\ mask.get 5 i = true)
  /\ (all (generic 4) 5 <> 0
      <-> forall i, 0 <= i < width (generic 4) -> mask.get 5 i = true).
Proof.
  apply (X11_any_all_lanes (generic 4) 5).
  - exact generic_4_ok.
  - vm_compute. split; [intros Hc; discriminate Hc | reflexivity].
Defined.

(** X12.  [any(~m)] is true exactly when [all(m)] is false, for every data
    word; and on a descriptor with at least one lane, [all(m)] implies
    [any(m)]. *)
Theorem X12_any_not_all (A : arch) (m : mask.t) :
  arch_ok A ->
  (any (mask.not A m) <> 0 <-> all A m = 0)
  /\ (all A m <> 0 -> any m <> 0).
Proof.
  intros [Hw Hmask].
  unfold any, all, movemask, mask.movemask, mask.not, b2z.
  assert (Hxor : Z.lxor m (width_mask A) = 0 <-> m = width_mask A)
    by apply Z.lxor_eq_0_iff.
  assert (Hpos : 0 < width_mask A).
  { rewrite Hmask.
    assert (2 ^ 1 <= 2 ^ width A) by (apply Z.pow_le_mono_r; lia).
    change (2 ^ 1) with 2 in *. lia. }
  split.
  - destruct (Z.eqb_spec (Z.lxor m (width_mask A)) 0) as [Hz | Hnz];
      destruct (Z.eqb_spec m (width_mask A)) as [He | Hne];
      cbn [negb]; split; intros; try lia; try tauto.
  - destruct (Z.eqb_spec m (width_mask A)) as [He | Hne]; [| lia].
    intros _. destruct (Z.eqb_spec m 0) as [Hz | Hnz]; cbn [negb]; lia.
Qed.

Lemma X12_any_not_all_witness :
  (any (mask.not (generic 4) 15) <> 0 <-> all (generic 4) 15 = 0)
  /\ (all (generic 4) 15 <> 0 -> any 15 <> 0).
Proof.
  apply (X12_any_not_all (generic 4) 15). exact generic_4_ok.
Defined.

(** ** The primary template: constructors and assignments *)

Section PrimaryFacts.
Variable A : arch.
Context {T : Type} `{ValueInit T}.

Lemma copy_length (src : list T) :
  forall (k : nat) (data : list T),
    length (generic_vec.copy src k data) = length data.
Proof.
  induction src as [| x src IH]; intros k data; cbn [generic_vec.copy].
  - reflexivity.
  - now rewrite IH, length_insert.
Qed.

Lemma copy_lookup (src : list T) :
  forall (k : nat) (data : list T) (j : nat),
    (k + length src <= length data)%nat ->
    generic_vec.copy src k data !! j
      = if (k <=? j)%nat && (j <? k + length src)%nat
        then src !! (j - k)%nat else data !! j.
Proof.
  induction src as [| x src IH]; intros k data j Hlen;
    cbn [generic_vec.copy length] in *.
  - destruct (Nat.leb_spec k j), (Nat.ltb_spec j (k + 0)); cbn [andb];
      (reflexivity || lia).
  - rewrite IH by (rewrite length_insert; lia).
    destruct (Nat.leb_spec (S k) j) as [Hle | Hgt].
    + destruct (Nat.leb_spec k j); [| lia].
      destruct (Nat.ltb_spec j (S k + length src)),
        (Nat.ltb_spec j (k + S (length src))); cbn [andb]; try lia.
      * replace (j - k)%nat with (S (j - S k)) by lia. reflexivity.
      * apply list_lookup_insert_ne. lia.
    + cbn [andb].
      destruct (Nat.eq_dec j k) as [-> | Hne].
      * rewrite list_lookup_insert_eq by lia.
        destruct (Nat.leb_spec k k); [| lia].
        destruct (Nat.ltb_spec k (k + S (length src))); [| lia].
        now rewrite Nat.sub_diag.
      * rewrite list_lookup_insert_ne by lia.
        destruct (Nat.leb_spec k j); [lia | reflexivity].
Qed.

End PrimaryFacts.

(** X13.  A vector constructed from an initializer list of at most [width]
    elements has [width] elements, holds the [i]-th list element in lane
    [i], and the value-initialised element in the lanes past the end of
    the list. *)
Theorem X13_primary_init_list_lanes (A : arch) (T : Type) `{ValueInit T}
    (il : list T) (i : Z) :
  Z.of_nat (length il) <= width A -> 0 <= i < width A ->
  generic_vec.wf A (generic_vec.ctor_init_list A il)
  /\ generic_vec.get (generic_vec.ctor_init_list A il) i
     = nth (Z.to_nat i) il value_init.
Proof.
  intros Hlen Hi. unfold generic_vec.wf, generic_vec.ctor_init_list,
    generic_vec.get.
  split.
  - rewrite copy_length. apply generic_default_wf.
  - rewrite copy_lookup
      by (unfold generic_vec.ctor_default; rewrite length_replicate; lia).
    rewrite Nat.sub_0_r. cbn [Nat.leb andb Nat.add].
    destruct (Nat.ltb_spec (Z.to_nat i) (length il)) as [Hlt | Hge].
    + destruct (il !! Z.to_nat i) as [x |] eqn:Hx.
      * cbn [default]. symmetry.
        apply nth_lookup_Some with (d := value_init) in Hx. exact Hx.
      * apply lookup_ge_None in Hx. lia.
    + rewrite nth_overflow by lia.
      unfold generic_vec.ctor_default.
      rewrite lookup_replicate_2 by lia. reflexivity.
Qed.

Lemma X13_primary_init_list_lanes_witness :
  generic_vec.get (generic_vec.ctor_init_list (generic 4) [7; 8]) 3
    = nth (Z.to_nat 3) [7; 8] value_init.
Proof.
  apply (X13_primary_init_list_lanes (generic 4) Z [7; 8] 3).
  - vm_compute. intros Hc. discriminate Hc.
  - vm_compute. split; [intros Hc; discriminate Hc | reflexivity].
Defined.

(** ** Assignment and compound assignment *)

Section FoldUpdate.
Context {A : arch} {T : Type} {VT : ValueInit T} {L : Lanes A T}.
Context {HL : LanesLaws A T}.
Variable h : Z -> T -> T.

(** After the in-place updates [u[i] = h i u[i]] of distinct lanes, an
    updated lane holds [h] of its former content, the others hold what they
    held. *)
Lemma fold_update_get (ls : list Z) :
  forall (u : vec A T) (j : Z),
    wf u -> Forall (in_range A) ls -> NoDup ls -> 0 <= j < width A ->
    wf (fold_left (fun u i => put u i (h i (get u i))) ls u)
    /\ get (fold_left (fun u i => put u i (h i (get u i))) ls u) j
       = if existsb (Z.eqb j) ls then h j (get u j) else get u j.
Proof.
  induction ls as [| i ls IH]; intros u j Hu Hls Hnd Hj.
  - split; [exact Hu | reflexivity].
  - rewrite fold_left_cons. inversion Hls as [| ? ? Hi Hrest]; subst.
    apply NoDup_cons in Hnd as [Hnotin Hnd].
    destruct (IH (put u i (h i (get u i))) j) as [Hwf Hget];
      try assumption.
    { now apply put_wf. }
    split; [exact Hwf |]. rewrite Hget. cbn [existsb].
    destruct (existsb (Z.eqb j) ls) eqn:Hex.
    + rewrite orb_true_r.
      apply existsb_exists in Hex as (x & Hin & Heq).
      apply Z.eqb_eq in Heq. subst x.
      assert (i <> j).
      { intros ->. apply Hnotin. now apply list_elem_of_In. }
      now rewrite get_put_ne.
    + rewrite orb_false_r. destruct (Z.eqb_spec j i) as [-> | Hne].
      * now apply get_put_eq.
      * apply get_put_ne; (assumption || congruence).
Qed.

Lemma for_lanes_update_get (u : vec A T) (j : Z) :
  wf u -> 0 <= j < width A ->
  wf (for_lanes A (fun i u => put u i (h i (get u i))) u)
  /\ get (for_lanes A (fun i u => put u i (h i (get u i))) u) j
     = h j (get u j).
Proof.
  intros Hu Hj. unfold for_lanes.
  destruct (fold_update_get (seqZ 0 (width A)) u j) as [Hwf Hget];
    try assumption.
  - apply seqZ_in_range.
  - apply NoDup_seqZ.
  - split; [exact Hwf |]. now rewrite Hget, existsb_seqZ.
Qed.

End FoldUpdate.

(** X14.  Assigning a scalar to a vector of the primary template sets
    every lane to it; assigning another vector sets lane [i] to that
    vector's lane [i], converted.  The array keeps its [width] elements. *)
Theorem X14_assignment_lanes (A : arch) (T U : Type) `{ValueInit T}
    {LU : Lanes A U} (conv : U -> T) (data : list T) (x : T)
    (rhs : vec A U) (i : Z) :
  generic_vec.wf A data -> 0 <= i < width A ->
  generic_vec.get (primary.assign_scalar A data x) i = x
  /\ generic_vec.get (primary.assign_vec A conv data rhs) i
     = conv (get rhs i)
  /\ generic_vec.wf A (primary.assign_scalar A data x)
  /\ generic_vec.wf A (primary.assign_vec A conv data rhs).
Proof.
  intros Hdata Hi.
  pose proof (generic_laws A T) as HL.
  unfold primary.assign_scalar, primary.assign_vec, for_lanes.
  split; [| split; [| split]].
  - apply (for_lanes_put_get (L := generic_lanes A T) (fun _ => x));
      assumption.
  - apply (for_lanes_put_get (L := generic_lanes A T)
             (fun i => conv (get rhs i))); assumption.
  - apply (fold_put_wf (L := generic_lanes A T) (fun _ => x));
      [assumption | apply seqZ_in_range].
  - apply (fold_put_wf (L := generic_lanes A T)
             (fun i => conv (get rhs i)));
      [assumption | apply seqZ_in_range].
Qed.

Lemma X14_assignment_lanes_witness :
  generic_vec.get (T := Z)
    (primary.assign_scalar (generic 4) [1; 2; 3; 4] 7) 2 = 7
  /\ generic_vec.get (T := Z)
       (primary.assign_vec (generic 4) (U := bool) b2z [1; 2; 3; 4] 5) 2
     = b2z (get (A := generic 4) (T := bool) 5 2).
Proof.
  destruct (X14_assignment_lanes (generic 4) Z bool
              (LU := mask_lanes (generic 4)) b2z [1; 2; 3; 4] 7 5 2)
    as (H1 & H2 & _).
  - reflexivity.
  - vm_compute. split; [intros Hc; discriminate Hc | reflexivity].
  - split; [exact H1 | exact H2].
Defined.

(** X15.  A compound assignment [a op= b] of the primary template leaves
    in lane [i] the scalar operator applied to the former [a[i]] and to
    [b[i]] (or to the scalar operand), keeps the [width] elements, and so
    agrees lane by lane with the vector the binary operator template
    builds from the same operands. *)
Theorem X15_compound_assignment_lanes (A : arch) (T U : Type) `{ValueInit T}
    {LU : Lanes A U} (op : T -> U -> T) (data : list T) (rhs : vec A U)
    (s : U) (i : Z) :
  generic_vec.wf A data -> 0 <= i < width A ->
  generic_vec.get (primary.compound_vv A op data rhs) i
    = op (generic_vec.get data i) (get rhs i)
  /\ generic_vec.get (primary.compound_vs A op data s) i
     = op (generic_vec.get data i) s
  /\ generic_vec.wf A (primary.compound_vv A op data rhs)
  /\ generic_vec.get (primary.compound_vv A op data rhs) i
     = get (binop_vv (A := A) (LT := generic_lanes A T)
              (LR := generic_lanes A T) op data rhs) i
  /\ generic_vec.get (primary.compound_vs A op data s) i
     = get (binop_vs (A := A) (LT := generic_lanes A T)
              (LR := generic_lanes A T) op data s) i.
Proof.
  intros Hdata Hi.
  pose proof (generic_laws A T) as HL.
  destruct (for_lanes_update_get (L := generic_lanes A T)
              (fun i x => op x (get rhs i)) data i Hdata Hi)
    as [Hwf Hvv].
  destruct (for_lanes_update_get (L := generic_lanes A T)
              (fun _ x => op x s) data i Hdata Hi)
    as [_ Hvs].
  split; [exact Hvv |]. split; [exact Hvs |]. split; [exact Hwf |].
  split.
  - rewrite (binop_vv_get (LR := generic_lanes A T)) by assumption.
    exact Hvv.
  - rewrite (binop_vs_get (LR := generic_lanes A T)) by assumption.
    exact Hvs.
Qed.

Lemma X15_compound_assignment_lanes_witness :
  generic_vec.get (T := int32)
    (primary.compound_vv (generic 4) (U := int32) int32_add a1234 b1234) 1
    = int32_add (generic_vec.get (T := int32) a1234 1)
        (get (A := generic 4) (T := int32) b1234 1).
Proof.
  refine (proj1 (X15_compound_assignment_lanes (generic 4) int32 int32
                   (LU := generic_lanes (generic 4) int32) int32_add
                   a1234 b1234 0 1 _ _)).
  - reflexivity.
  - vm_compute. split; [intros Hc; discriminate Hc | reflexivity].
Defined.

(** X16.  The unary operator template yields the scalar operator applied
    to every lane, and two applications compose lane by lane. *)
Theorem X16_unop_lanes (A : arch) (T R Q : Type) {VR : ValueInit R}
    {VQ : ValueInit Q} {LT : Lanes A T} {LR : Lanes A R} {LQ : Lanes A Q}
    (f : T -> R) (g : R -> Q) (l : vec A T) (i : Z) :
  LanesLaws A R -> LanesLaws A Q -> 0 <= i < width A ->
  get (unop f l) i = f (get l i)
  /\ get (unop g (unop f l)) i = g (f (get l i)).
Proof.
  intros HR HQ Hi. split.
  - now apply unop_get.
  - rewrite (unop_get g) by assumption. f_equal. now apply unop_get.
Qed.

Lemma X16_unop_lanes_witness :
  get (A := generic 4) (T := int32) (unop (A := generic 4) Z.opp a1234) 2
    = - get (A := generic 4) (T := int32) a1234 2.
Proof.
  refine (proj1 (X16_unop_lanes (generic 4) int32 int32 int32 Z.opp Z.opp
                   a1234 2 (generic_laws (generic 4) int32)
                   (generic_laws (generic 4) int32) _)).
  vm_compute. split; [intros Hc; discriminate Hc | reflexivity].
Defined.

(** ** Scatter and gather *)

Section WriteFacts.
Context {T : Type}.
Variable p : Z -> ptr.
Variable g : Z -> T.

(** Memory after the stores [*p(i) = g(i)] in the order of [ls]. *)
Lemma fold_write (ls : list Z) :
  forall (mem : ptr -> T) (a : ptr),
    fold_left (fun mem i => mem_write mem (p i) (g i)) ls mem a
      = match last_writer p ls a with
        | Some j => g j
        | None => mem a
        end.
Proof.
  induction ls as [| i ls IH]; intros mem a; [reflexivity |].
  rewrite fold_left_cons, IH. cbn [last_writer].
  destruct (last_writer p ls a); [reflexivity |].
  unfold mem_write. now destruct (a =? p i).
Qed.

Lemma last_writer_Some (ls : list Z) (a : ptr) (j : Z) :
  last_writer p ls a = Some j -> In j ls /\ p j = a.
Proof.
  induction ls as [| i ls IH]; cbn [last_writer]; [discriminate |].
  destruct (last_writer p ls a) as [j' |].
  - intros [= ->]. destruct (IH eq_refl) as [Hin Hp].
    split; [now right | exact Hp].
  - destruct (Z.eqb_spec a (p i)) as [-> | _]; [| discriminate].
    intros [= ->]. split; [now left | reflexivity].
Qed.

Lemma last_writer_None (ls : list Z) (a : ptr) :
  (forall k, In k ls -> p k <> a) -> last_writer p ls a = None.
Proof.
  induction ls as [| i ls IH]; intros Hall; cbn [last_writer];
    [reflexivity |].
  rewrite IH by (intros k Hk; apply Hall; now right).
  destruct (Z.eqb_spec a (p i)) as [-> | _]; [| reflexivity].
  exfalso. apply (Hall i); [now left | reflexivity].
Qed.

(** In an ascending sequence of lanes, the highest lane that points to [a]
    is the one whose value stays. *)
Lemma last_writer_highest (ls : list Z) (a : ptr) (i : Z) :
  StronglySorted Z.lt ls -> In i ls -> p i = a ->
  (forall k, In k ls -> i < k -> p k <> a) ->
  last_writer p ls a = Some i.
Proof.
  induction 1 as [| x ls Hsorted IH Hall]; intros Hin Hpi Hhigh;
    [destruct Hin |].
  cbn [last_writer]. rewrite List.Forall_forall in Hall.
  destruct Hin as [-> | Hin].
  - rewrite last_writer_None.
    + subst a. now rewrite Z.eqb_refl.
    + intros k Hk. apply Hhigh; [now right |]. now apply Hall.
  - rewrite IH; try assumption. { reflexivity. }
    intros k Hk. apply Hhigh. now right.
Qed.

End WriteFacts.

Lemma lanes_sorted (A : arch) : StronglySorted Z.lt (seqZ 0 (width A)).
Proof.
  destruct (Z_le_gt_dec 0 (width A)) as [Hw | Hw].
  - rewrite <- (Z2Nat.id (width A)) by assumption.
    apply seqZ_strongly_sorted.
  - rewrite seqZ_nil by lia. constructor.
Qed.

Lemma lanes_In (A : arch) (i : Z) :
  In i (seqZ 0 (width A)) <-> 0 <= i < width A.
Proof. rewrite <- list_elem_of_In, elem_of_seqZ. lia. Qed.

(** X17.  The unconditional store writes the lanes in ascending order:
    an address no lane points to keeps its content, and an address holds
    afterwards the element of the highest lane that points to it (with
    pairwise distinct pointers: [*pointers[i] == values[i]] for every
    lane). *)
Theorem X17_store_last_lane_wins (A : arch) (T : Type) {LT : Lanes A T}
    {LP : Lanes A ptr} (mem : ptr -> T) (v : vec A ptr) (u : vec A T)
    (i : Z) (a : ptr) :
  0 <= i < width A ->
  (forall k, i < k < width A -> get v k <> get v i) ->
  (forall k, 0 <= k < width A -> get v k <> a) ->
  scatter.store_pointers mem v u (get v i) = get u i
  /\ scatter.store_pointers mem v u a = mem a.
Proof.
  intros Hi Hhigh Hframe.
  unfold scatter.store_pointers, scatter.store, for_lanes.
  rewrite !(fold_write (fun i => get v i) (fun i => get u i)).
  split.
  - rewrite (last_writer_highest _ _ _ i); try reflexivity.
    + apply lanes_sorted.
    + now apply lanes_In.
    + intros k Hk Hlt. apply lanes_In in Hk. apply Hhigh. lia.
  - rewrite last_writer_None; [reflexivity |].
    intros k Hk. apply lanes_In in Hk. now apply Hframe.
Qed.

Lemma X17_store_last_lane_wins_witness :
  scatter.store_pointers (A := generic 4) (T := int32) mem1234
    ([0; 1; 1; 3] : list ptr) a1234 1 = 3
  /\ scatter.store_pointers (A := generic 4) (T := int32) mem1234
       ([0; 1; 1; 3] : list ptr) a1234 2 = 300.
Proof.
  assert (Hlanes : forall k, 0 <= k < width (generic 4) ->
            k = 0 \/ k = 1 \/ k = 2 \/ k = 3).
  { intros k Hk. change (width (generic 4)) with 4 in Hk. lia. }
  apply (X17_store_last_lane_wins (generic 4) int32
           (LT := generic_lanes (generic 4) int32)
           (LP := generic_lanes (generic 4) ptr) mem1234
           ([0; 1; 1; 3] : list ptr) a1234 2 2).
  - vm_compute. split; [intros Hc; discriminate Hc | reflexivity].
  - intros k Hk.
    destruct (Hlanes k ltac:(lia)) as [-> | [-> | [-> | ->]]];
      (lia || discriminate).
  - intros k Hk.
    destruct (Hlanes k Hk) as [-> | [-> | [-> | ->]]]; discriminate.
Defined.

(** X18.  The masked store returns, writes only through the lanes whose
    mask bit is set, in ascending order: an address that no active lane
    points to keeps its content, and the element of an active lane stays
    at its address unless a higher active lane points there too. *)
Theorem X18_store_masked_active_lanes (A : arch) (T : Type) {LT : Lanes A T}
    {LP : Lanes A ptr} (mem : ptr -> T) (v : vec A ptr) (u : vec A T)
    (m : mask.t) (i : Z) (a : ptr) :
  arch_ok A -> bounded A m ->
  0 <= i < width A -> mask.get m i = true ->
  (forall k, i < k < width A -> mask.get m k = true -> get v k <> get v i) ->
  (forall k, 0 <= k < width A -> mask.get m k = true -> get v k <> a) ->
  exists mem' : ptr -> T,
    scatter.store_pointers_mask mem v u m = Ret mem'
    /\ mem' (get v i) = get u i
    /\ mem' a = mem a.
Proof.
  intros A_ok Hm Hi Hset Hhigh Hframe.
  pose proof (bounded_wf A A_ok m Hm) as Hwf.
  pose proof (active_lanes_in_range A m A_ok Hm) as Hlanes.
  rewrite List.Forall_forall in Hlanes.
  pose proof A_ok as [Hw _].
  assert (Hactive : forall k, In k (active_lanes m) ->
            0 <= k < width A /\ mask.get m k = true).
  { intros k Hk. pose proof (Hlanes k Hk) as Hr. unfold in_range in Hr.
    split; [exact Hr |].
    apply active_lanes_In in Hk as [_ Hbit].
    rewrite mask_get_testbit by lia. exact Hbit. }
  unfold scatter.store_pointers_mask, scatter.store_masked.
  rewrite foreach_active_run by assumption.
  unfold movemask, mask.movemask.
  eexists. split; [reflexivity |].
  rewrite !(fold_write (fun i => get v i) (fun i => get u i)).
  split.
  - rewrite (last_writer_highest _ _ _ i); try reflexivity.
    + apply active_lanes_sorted.
    + apply active_lanes_In. split; [lia |].
      rewrite <- mask_get_testbit by lia. exact Hset.
    + intros k Hk Hlt. destruct (Hactive k Hk) as [Hr Hb].
      apply Hhigh; (lia || assumption).
  - rewrite last_writer_None; [reflexivity |].
    intros k Hk. destruct (Hactive k Hk) as [Hr Hb]. now apply Hframe.
Qed.

Lemma X18_store_masked_active_lanes_witness :
  exists mem' : ptr -> int32,
    scatter.store_pointers_mask (A := generic 4) (T := int32) mem1234
      ptrs0123 a1234 (mask.ctor_init_list [true; false; false; false])
      = Ret mem'
    /\ mem' (get (A := generic 4) (T := ptr) ptrs0123 0)
       = get (A := generic 4) (T := int32) a1234 0
    /\ mem' 1 = mem1234 1.
Proof.
  assert (Hlanes : forall k, 0 <= k < width (generic 4) ->
            k = 0 \/ k = 1 \/ k = 2 \/ k = 3).
  { intros k Hk. change (width (generic 4)) with 4 in Hk. lia. }
  apply (X18_store_masked_active_lanes (generic 4) int32
           (LT := generic_lanes (generic 4) int32)
           (LP := generic_lanes (generic 4) ptr) mem1234 ptrs0123 a1234
           (mask.ctor_init_list [true; false; false; false]) 0 1).
  - exact generic_4_ok.
  - vm_compute. split; [intros Hc; discriminate Hc | reflexivity].
  - vm_compute. split; [intros Hc; discriminate Hc | reflexivity].
  - reflexivity.
  - intros k Hk.
    destruct (Hlanes k ltac:(lia)) as [-> | [-> | [-> | ->]]];
      (lia || discriminate).
  - intros k Hk.
    destruct (Hlanes k Hk) as [-> | [-> | [-> | ->]]]; discriminate.
Defined.

Section RoundTrips.
Context {A : arch} {T : Type} {VT : ValueInit T}.
Context {LT : Lanes A T} {LP : Lanes A ptr} {HL : LanesLaws A T}.

(** X19.  The loader's unmasked [load] leaves in lane [i] of its
    destination the element at [pointers[i]], whatever the destination
    held; after a store through pairwise distinct pointers, it reads the
    stored vector back lane by lane. *)
Theorem X19_load_after_store (mem : ptr -> T) (dst : vec A T)
    (v : vec A ptr) (u : vec A T) :
  wf dst ->
  (forall i k, 0 <= i < width A -> 0 <= k < width A -> i <> k ->
     get v i <> get v k) ->
  (forall i, 0 <= i < width A ->
     get (base_loader.load mem dst v) i = mem (get v i))
  /\ (forall i, 0 <= i < width A ->
     get (base_loader.load (scatter.store_pointers mem v u) dst v) i
       = get u i).
Proof.
  intros Hdst Hinj. split.
  - intros i Hi. now apply load_lanes.
  - intros i Hi. rewrite load_lanes by assumption.
    unfold scatter.store_pointers, scatter.store, for_lanes.
    rewrite (fold_write (fun i => get v i) (fun i => get u i)).
    rewrite (last_writer_highest _ _ _ i); try reflexivity.
    + apply lanes_sorted.
    + now apply lanes_In.
    + intros k Hk Hlt. apply lanes_In in Hk. apply Hinj; lia.
Qed.

(** X20.  Storing back what the loader's [load] has just gathered through
    the same pointers leaves every address of the memory as it was, whether
    or not pointers coincide. *)
Theorem X20_store_of_load_unchanged (mem : ptr -> T) (dst : vec A T)
    (v : vec A ptr) (a : ptr) :
  wf dst ->
  scatter.store_pointers mem v (base_loader.load mem dst v) a = mem a.
Proof.
  intros Hdst.
  unfold scatter.store_pointers, scatter.store, for_lanes.
  rewrite (fold_write (fun i => get v i)
             (fun i => get (base_loader.load mem dst v) i)).
  destruct (last_writer (fun i => get v i) (seqZ 0 (width A)) a)
    as [j |] eqn:Hlast; [| reflexivity].
  apply last_writer_Some in Hlast as [Hin Hp].
  apply lanes_In in Hin.
  rewrite load_lanes by assumption.
  now rewrite Hp.
Qed.

End RoundTrips.

Lemma X19_load_after_store_witness :
  get (A := generic 4) (T := int32)
    (base_loader.load (A := generic 4) (T := int32)
       (scatter.store_pointers (A := generic 4) (T := int32) mem1234
          ptrs0123 a1234) b1234 ptrs0123) 2
  = get (A := generic 4) (T := int32) a1234 2.
Proof.
  assert (Hlanes : forall k, 0 <= k < width (generic 4) ->
            k = 0 \/ k = 1 \/ k = 2 \/ k = 3).
  { intros k Hk. change (width (generic 4)) with 4 in Hk. lia. }
  refine (proj2 (X19_load_after_store (A := generic 4) (T := int32)
                   (LT := generic_lanes (generic 4) int32)
                   (LP := generic_lanes (generic 4) ptr)
                   (HL := generic_laws (generic 4) int32)
                   mem1234 b1234 ptrs0123 a1234 _ _) 2 _).
  - reflexivity.
  - intros i k Hi Hk Hne.
    destruct (Hlanes i Hi) as [-> | [-> | [-> | ->]]];
      destruct (Hlanes k Hk) as [-> | [-> | [-> | ->]]];
      (congruence || discriminate).
  - vm_compute. split; [intros Hc; discriminate Hc | reflexivity].
Defined.

Lemma X20_store_of_load_unchanged_witness :
  scatter.store_pointers (A := generic 4) (T := int32) mem1234
    ([0; 1; 1; 3] : list ptr)
    (base_loader.load (A := generic 4) (T := int32) mem1234 b1234
       ([0; 1; 1; 3] : list ptr)) 1
  = mem1234 1.
Proof.
  refine (X20_store_of_load_unchanged (A := generic 4) (T := int32)
            (LT := generic_lanes (generic 4) int32)
            (LP := generic_lanes (generic 4) ptr)
            (HL := generic_laws (generic 4) int32)
            mem1234 b1234 ([0; 1; 1; 3] : list ptr) 1 _).
  reflexivity.
Defined.

(** X21.  The container form of the masked load returns, fills lane [i]
    with [mem[i]] for the lanes whose mask bit is set, and leaves the other
    lanes of the destination as they were. *)
Theorem X21_load_indexed_lanes (A : arch) (T : Type) {VT : ValueInit T}
    {LT : Lanes A T} (v : vec A T) (at_ : Z -> T) (m : mask.t) :
  arch_ok A -> LanesLaws A T -> wf v -> bounded A m ->
  exists r : vec A T,
    scatter.load_indexed v at_ m = Ret r
    /\ wf r
    /\ forall i, 0 <= i < width A ->
         get r i = if mask.get m i then at_ i else get v i.
Proof.
  intros A_ok HL Hv Hm.
  pose proof (bounded_wf A A_ok m Hm) as Hwf.
  pose proof (active_lanes_in_range A m A_ok Hm) as Hlanes.
  pose proof A_ok as [Hw _].
  unfold scatter.load_indexed.
  rewrite foreach_active_run by assumption.
  unfold movemask, mask.movemask.
  eexists. split; [reflexivity |]. split.
  - exact (fold_put_wf at_ (active_lanes m) v Hv Hlanes).
  - intros i Hi.
    pose proof (fold_put_get at_ (active_lanes m) v i Hv Hlanes Hi) as Hget.
    rewrite existsb_active_lanes in Hget by lia.
    rewrite mask_get_testbit by lia. exact Hget.
Qed.

Lemma X21_load_indexed_lanes_witness :
  exists r : list int32,
    scatter.load_indexed (A := generic 4) (T := int32) a1234
      (fun i => 10 * i) 5 = Ret r
    /\ wf (A := generic 4) (T := int32) r
    /\ forall i, 0 <= i < width (generic 4) ->
         get (A := generic 4) (T := int32) r i
           = if mask.get 5 i then 10 * i
             else get (A := generic 4) (T := int32) a1234 i.
Proof.
  apply (X21_load_indexed_lanes (generic 4) int32
           (LT := generic_lanes (generic 4) int32) a1234
           (fun i => 10 * i) 5 generic_4_ok
           (generic_laws (generic 4) int32)).
  - reflexivity.
  - vm_compute. split; [intros Hc; discriminate Hc | reflexivity].
Defined.

(** ** Output *)

Lemma string_app_nil_r (s : string) : (s ++ EmptyString)%string = s.
Proof. induction s as [| c s IH]; [reflexivity |]. cbn. now rewrite IH. Qed.

Lemma string_app_assoc (s1 s2 s3 : string) :
  ((s1 ++ s2) ++ s3)%string = (s1 ++ (s2 ++ s3))%string.
Proof.
  induction s1 as [| c s1 IH]; [reflexivity |]. cbn. now rewrite IH.
Qed.

Section PrintFacts.
Context {A : arch} {T : Type} {L : Lanes A T}.
Variable show : T -> string.
Variable v : vec A T.

(** The loop over the lanes [a .. width-1] appends their items, separated
    by commas. *)
Lemma print_loop (n : nat) :
  forall (a : Z) (os : string),
    a + Z.of_nat n = width A ->
    fold_left (fun os i => print_step show v i os) (seqZ a (Z.of_nat n)) os
      = (os ++ String.concat ","
                 (map (print_item show v) (seqZ a (Z.of_nat n))))%string.
Proof.
  induction n as [| n IH]; intros a os Han.
  - rewrite seqZ_nil by lia. cbn [fold_left map String.concat].
    now rewrite string_app_nil_r.
  - rewrite seqZ_cons by lia. rewrite fold_left_cons.
    replace (Z.pred (Z.of_nat (S n))) with (Z.of_nat n) by lia.
    rewrite IH by lia. unfold print_step at 1.
    destruct n as [| n].
    + rewrite seqZ_nil by lia. cbn [map String.concat].
      destruct (Z.eqb_spec a (width A - 1)); [| lia].
      cbn [negb]. rewrite string_app_nil_r. reflexivity.
    + destruct (Z.eqb_spec a (width A - 1)); [lia |].
      cbn [negb]. rewrite (seqZ_cons (Z.succ a)) by lia.
      cbn [map String.concat].
      rewrite !string_app_assoc. reflexivity.
Qed.

End PrintFacts.

(** X22.  The output operator writes an opening brace, the lanes in
    ascending order, each preceded by one space and separated by commas,
    and a closing brace that directly follows the last lane. *)
Theorem X22_print_format (A : arch) (T : Type) {L : Lanes A T}
    (show : T -> string) (os : string) (v : vec A T) :
  print show os v
    = (os ++ "{"
          ++ String.concat "," (map (print_item show v) (seqZ 0 (width A)))
          ++ "}")%string.
Proof.
  unfold print, for_lanes.
  destruct (Z_le_gt_dec 0 (width A)) as [Hw | Hw].
  - pose proof (print_loop show v (Z.to_nat (width A)) 0 (os ++ "{")) as Hl.
    rewrite Z2Nat.id in Hl by assumption.
    rewrite Hl by lia. now rewrite !string_app_assoc.
  - rewrite seqZ_nil by lia. cbn [fold_left map String.concat].
    now rewrite !string_app_assoc.
Qed.

Lemma print_example :
  print (A := generic 4) (T := int32) show_digit "v = " a1234
    = "v = { 1, 2, 3, 4}"%string.
Proof. reflexivity. Qed.

(** ** Broadcast constructors *)

(** X23.  The scalar constructor of the primary template fills every lane
    with its argument; the constructor of a mask from one [bool] sets
    every lane in [[0, width)] to it and no bit above, so that [any] and
    [all] of the result are both that [bool]. *)
Theorem X23_scalar_ctor_broadcasts (A : arch) (T : Type) `{ValueInit T}
    (u : T) (b : bool) (i : Z) :
  arch_ok A -> 0 <= i < width A ->
  generic_vec.get (generic_vec.ctor_scalar A u) i = u
  /\ generic_vec.wf A (generic_vec.ctor_scalar A u)
  /\ mask.get (mask.ctor_bool A b) i = b
  /\ bounded A (mask.ctor_bool A b)
  /\ any (mask.ctor_bool A b) = b2z b
  /\ all A (mask.ctor_bool A b) = b2z b.
Proof.
  intros A_ok Hi. pose proof A_ok as [Hw Hmask].
  assert (Hpos : 0 < width_mask A).
  { rewrite Hmask.
    assert (2 ^ 1 <= 2 ^ width A) by (apply Z.pow_le_mono_r; lia).
    change (2 ^ 1) with 2 in *. lia. }
  split; [now apply (generic_get_scalar A) |].
  split.
  { unfold generic_vec.wf, generic_vec.ctor_scalar.
    rewrite length_fmap. apply generic_default_wf. }
  split; [now apply (mask_broadcasts A A_ok) |].
  split.
  { destruct b; [now apply width_mask_bounded | now apply zero_bounded]. }
  unfold any, all, movemask, mask.movemask, mask.ctor_bool.
  destruct b; cbn [b2z].
  - rewrite Z.eqb_refl.
    destruct (Z.eqb_spec (width_mask A) 0); [lia |]. now split.
  - destruct (Z.eqb_spec 0 (width_mask A)); [lia |]. now split.
Qed.

Lemma X23_scalar_ctor_broadcasts_witness :
  generic_vec.get (T := Z) (generic_vec.ctor_scalar (generic 4) 7) 3 = 7
  /\ mask.get (mask.ctor_bool (generic 4) true) 3 = true.
Proof.
  destruct (X23_scalar_ctor_broadcasts (generic 4) Z 7 true 3)
    as (H1 & _ & H3 & _).
  - exact generic_4_ok.
  - vm_compute. split; [intros Hc; discriminate Hc | reflexivity].
  - split; [exact H1 | exact H3].
Defined.

(** ** Full and empty masks *)

Lemma filter_all {X : Type} (f : X -> bool) (l : list X) :
  (forall x, In x l -> f x = true) -> List.filter f l = l.
Proof.
  induction l as [| x l IH]; intros Hall; [reflexivity |].
  cbn [List.filter]. rewrite (Hall x) by now left.
  f_equal. apply IH. intros y Hy. apply Hall. now right.
Qed.

(** With every lane set, the enumeration is the sequence of all lanes. *)
Lemma active_lanes_full (A : arch) :
  arch_ok A -> active_lanes (width_mask A) = seqZ 0 (width A).
Proof.
  intros [Hw Hmask]. unfold active_lanes. rewrite Hmask.
  replace 32 with (width A + (32 - width A)) at 1 by lia.
  rewrite seqZ_app by lia. rewrite List.filter_app.
  rewrite filter_all, filter_none.
  - apply app_nil_r.
  - intros j Hj. apply list_elem_of_In, elem_of_seqZ in Hj.
    rewrite testbit_all_ones by lia.
    destruct (Z.ltb_spec j (width A)); [lia | reflexivity].
  - intros j Hj. apply list_elem_of_In, elem_of_seqZ in Hj.
    rewrite testbit_all_ones by lia.
    destruct (Z.ltb_spec j (width A)); [reflexivity | lia].
Qed.

(** X24.  With the all-true mask the masked load and the masked store are
    the unmasked ones; with the all-false mask the load returns its
    destination and the store its memory, untouched. *)
Theorem X24_full_and_empty_mask (A : arch) (T : Type) {LT : Lanes A T}
    {LP : Lanes A ptr} (mem : ptr -> T) (dst u : vec A T) (v : vec A ptr) :
  arch_ok A ->
  base_loader.load_masked mem dst v (mask.ctor_true A)
    = Ret (base_loader.load mem dst v)
  /\ scatter.store_masked mem v u (mask.ctor_true A)
     = Ret (scatter.store mem v u)
  /\ base_loader.load_masked mem dst v mask.ctor_false = Ret dst
  /\ scatter.store_masked mem v u mask.ctor_false = Ret mem.
Proof.
  intros A_ok.
  pose proof (width_mask_range A A_ok) as Hwf.
  unfold base_loader.load_masked, scatter.store_masked, mask.ctor_true.
  rewrite !foreach_active_run by exact Hwf.
  unfold movemask, mask.movemask.
  rewrite (active_lanes_full A A_ok).
  repeat split.
Qed.

Lemma X24_full_and_empty_mask_witness :
  base_loader.load_masked (A := generic 4) (T := int32) mem1234 a1234
    ptrs0123 (mask.ctor_true (generic 4))
  = Ret (base_loader.load (A := generic 4) (T := int32) mem1234 a1234
           ptrs0123).
Proof.
  refine (proj1 (X24_full_and_empty_mask (generic 4) int32
                   (LT := generic_lanes (generic 4) int32)
                   (LP := generic_lanes (generic 4) ptr)
                   mem1234 a1234 a1234 ptrs0123 _)).
  exact generic_4_ok.
Defined.

(** ** The operator templates on every form of vector *)

(** X25.  The binary operator templates act lane by lane: for operands of
    element types [T] and [U], the result type [R] of the scalar operator
    and every lane [i] in [[0, width)], [(l op r)[i] == l[i] op r[i]] on a
    freshly constructed [vec<R,A>], and [(l op s)[i] == l[i] op s],
    [(s op r)[i] == s op r[i]] for the mixed forms, whenever [vec<R,A>]
    obeys the lane contract; the member operators [&], [|], [^], [&&],
    [||] that the bit-packed mask declares itself obey the same law. *)
Theorem X25_binop_templates_elementwise (A : arch) (T U R : Type)
    {VR : ValueInit R} {LT : Lanes A T} {LU : Lanes A U} {LR : Lanes A R}
    (op : T -> U -> R) :
  arch_ok A -> LanesLaws A R ->
  (forall (l : vec A T) (r : vec A U) (i : Z),
      0 <= i < width A -> get (binop_vv op l r) i = op (get l i) (get r i))
  /\ (forall (l : vec A T) (s : U) (i : Z),
      0 <= i < width A -> get (binop_vs op l s) i = op (get l i) s)
  /\ (forall (s : T) (r : vec A U) (i : Z),
      0 <= i < width A -> get (binop_sv op s r) i = op s (get r i))
  /\ (forall (m rhs : mask.t) (i : Z),
      0 <= i < width A ->
      mask.get (mask.and m rhs) i = mask.get m i && mask.get rhs i
      /\ mask.get (mask.or m rhs) i = mask.get m i || mask.get rhs i
      /\ mask.get (mask.xor m rhs) i = xorb (mask.get m i) (mask.get rhs i)
      /\ mask.get (mask.land m rhs) i = mask.get m i && mask.get rhs i
      /\ mask.get (mask.lor m rhs) i = mask.get m i || mask.get rhs i).
Proof.
  intros [Hw _] HR.
  split; [intros l r i Hi; now apply binop_vv_get |].
  split; [intros l s i Hi; now apply binop_vs_get |].
  split; [intros s r i Hi; now apply binop_sv_get |].
  intros m rhs i Hi; apply mask_binary_lanes; lia.
Qed.

Lemma X25_binop_templates_elementwise_witness :
  get (A := generic 4) (T := int32)
    (binop_vv (A := generic 4) (R := int32) int32_add a1234 b1234) 2
    = int32_add (get (A := generic 4) (T := int32) a1234 2)
        (get (A := generic 4) (T := int32) b1234 2)
  /\ get (A := generic 4) (T := bool)
       (binop_vs (A := generic 4) (T := int32) (R := bool) Z.ltb a1234 3) 1
    = (get (A := generic 4) (T := int32) a1234 1 <? 3).
Proof.
  split.
  - apply (proj1 (X25_binop_templates_elementwise (generic 4) int32 int32
                    int32 int32_add generic_4_ok
                    (generic_laws (generic 4) int32))).
    vm_compute. split; [intros Hc; discriminate Hc | reflexivity].
  - apply (proj1 (proj2 (X25_binop_templates_elementwise (generic 4) int32
                    int32 bool Z.ltb generic_4_ok
                    (mask_laws (generic 4) generic_4_ok)))).
    vm_compute. split; [intros Hc; discriminate Hc | reflexivity].
Defined.

(** ** The member operators of the [vec<std::int32_t>] specialisations *)

(** One lane of [_mm_srli_epi32] for a count from 1 to 31. *)
Lemma srli_lane (x c : Z) :
  - 2 ^ 31 <= x < 2 ^ 31 -> 0 < c < 32 ->
  s32 (Z.shiftr (u32 x) c)
    = if x <? 0 then int32_shr x c + 2 ^ (32 - c) else int32_shr x c.
Proof.
  intros Hx Hc. unfold int32_shr, u32.
  assert (Hpc : 0 < 2 ^ c) by (apply Z.pow_pos_nonneg; lia).
  assert (Hsplit : 2 ^ 32 = 2 ^ (32 - c) * 2 ^ c)
    by (rewrite <- Z.pow_add_r by lia; f_equal; lia).
  assert (Hhalf : 2 ^ (32 - c) = 2 * 2 ^ (31 - c)).
  { replace (32 - c) with (Z.succ (31 - c)) by lia.
    apply Z.pow_succ_r. lia. }
  assert (H31 : 2 ^ 31 = 2 ^ (31 - c) * 2 ^ c)
    by (rewrite <- Z.pow_add_r by lia; f_equal; lia).
  assert (H2c : 2 <= 2 ^ c).
  { change 2 with (2 ^ 1) at 1. apply Z.pow_le_mono_r; lia. }
  assert (Hp31 : 0 < 2 ^ (31 - c)) by (apply Z.pow_pos_nonneg; lia).
  assert (Hsmall : 2 * 2 ^ (31 - c) <= 2 ^ 31) by (rewrite H31; nia).
  rewrite !Z.shiftr_div_pow2 by lia.
  destruct (Z.ltb_spec x 0) as [Hneg | Hnn].
  - replace (x mod 2 ^ 32) with (x + 2 ^ 32)
      by (apply Z.mod_unique with (q := -1); lia).
    rewrite Hsplit at 1. rewrite Z.div_add by lia.
    assert (Hq : - 2 ^ (31 - c) <= x / 2 ^ c < 0).
    { split.
      - apply Z.div_le_lower_bound; [lia |]. nia.
      - apply Z.div_lt_upper_bound; lia. }
    apply s32_small. lia.
  - rewrite Z.mod_small by lia.
    assert (Hq : 0 <= x / 2 ^ c <= x).
    { split; [apply Z.div_pos; lia |].
      apply Z.div_le_upper_bound; nia. }
    apply s32_small. lia.
Qed.

(** X26.  On the specialisations [vec<std::int32_t, avx_4>] and
    [vec<std::int32_t, avx2_8>], the member [operator +] is the wrapping
    sum of the lanes, as the operator template computes it; the member
    [operator >>] with a count from 1 to 31 is the scalar shift on the
    lanes that are not negative, and exceeds it by [2^(32 - count)] on
    every negative lane, so that it differs there from the scalar operator
    and from the operator template. *)
Theorem X26_avx_member_operators (v rhs : avx_int32.t) (c i : Z) :
  0 < c < 32 ->
  0 <= i < Z.of_nat (length v) -> 0 <= i < Z.of_nat (length rhs) ->
  - 2 ^ 31 <= avx_int32.get v i < 2 ^ 31 ->
  avx_int32.get (avx_int32.add v rhs) i
    = int32_add (avx_int32.get v i) (avx_int32.get rhs i)
  /\ avx_int32.get (avx_int32.shr v c) i
     = (if avx_int32.get v i <? 0
        then int32_shr (avx_int32.get v i) c + 2 ^ (32 - c)
        else int32_shr (avx_int32.get v i) c)
  /\ (avx_int32.get v i < 0 ->
      avx_int32.get (avx_int32.shr v c) i
        <> int32_shr (avx_int32.get v i) c).
Proof.
  intros Hc Hi Hj Hx. unfold avx_int32.t, int32 in *.
  destruct (lookup_lt_is_Some_2 v (Z.to_nat i) ltac:(lia)) as [x Hvx].
  destruct (lookup_lt_is_Some_2 rhs (Z.to_nat i) ltac:(lia)) as [y Hry].
  assert (Hget : avx_int32.get v i = x)
    by (unfold avx_int32.get, avx_int32.t, int32; now rewrite Hvx).
  assert (Hcount : Z.land c 255 = c).
  { change 255 with (Z.ones 8). rewrite Z.land_ones by lia.
    apply Z.mod_small. change (2 ^ 8) with 256. lia. }
  assert (Hshr : avx_int32.get (avx_int32.shr v c) i
            = s32 (Z.shiftr (u32 x) c)).
  { unfold avx_int32.shr, avx_int32.ctor_internal, mm.srli_epi32,
      avx_int32.get, avx_int32.t, int32.
    cbv zeta.
    rewrite list_lookup_fmap, Hvx, Hcount. cbn [fmap option_fmap option_map].
    destruct (Z.ltb_spec 31 c); [lia | reflexivity]. }
  rewrite Hget in *. rewrite Hshr, srli_lane by lia.
  split; [| split].
  - unfold avx_int32.add, avx_int32.ctor_internal, mm.add_epi32,
      avx_int32.get, avx_int32.t, int32.
    now rewrite lookup_zip_with, Hvx, Hry.
  - reflexivity.
  - intros Hneg. destruct (Z.ltb_spec x 0); [| lia].
    assert (0 < 2 ^ (32 - c)) by (apply Z.pow_pos_nonneg; lia). lia.
Qed.

Lemma X26_avx_member_operators_witness :
  avx_int32.get
    (avx_int32.shr (avx_int32.ctor_lanes_4 (-8) 8 (-1) 5) 1) 0
  <> int32_shr (avx_int32.get (avx_int32.ctor_lanes_4 (-8) 8 (-1) 5) 0) 1.
Proof.
  refine (proj2 (proj2 (X26_avx_member_operators
                   (avx_int32.ctor_lanes_4 (-8) 8 (-1) 5)
                   (avx_int32.ctor_lanes_4 1 2 3 4) 1 0 _ _ _ _)) _).
  - vm_compute. split; reflexivity.
  - vm_compute. split; [intros Hc; discriminate Hc | reflexivity].
  - vm_compute. split; [intros Hc; discriminate Hc | reflexivity].
  - vm_compute. split; [intros Hc; discriminate Hc | reflexivity].
  - vm_compute. reflexivity.
Defined.
